(** * UCI options of SugaR (ucioption.cpp): a shallow embedding

    The file models the option registry of the engine: the case
    insensitive comparator, the [Option] class with its constructors, the
    assignment operator that validates a textual value, the declaration
    operator that hands out insertion ranks from one static counter, and
    the printing loop that walks the registry by rank. *)

From Stdlib Require Import ZArith List Bool Ascii String Lia.
From Stdlib Require Import Floats.SpecFloat.
From Stdlib Require Import Sorting.Sorted.
From Stdlib Require DecimalString.
Import ListNotations.

Local Open Scope string_scope.
Local Open Scope Z_scope.

Module UCI.

(** [operator==] of [std::string]. *)
Local Infix "==" := String.eqb (at level 70, no associativity).

(** ** Characters and the comparator *)

(** A C++ [char] converted to [int]; [char] is signed on the targets the
    engine is built for, so bytes from 128 upwards are negative. *)
Definition int_of_char (c : ascii) : Z :=
  let n := Z.of_N (N_of_ascii c) in
  if n <? 128 then n else n - 256.

(** [tolower] of <cctype> in the "C" locale. *)
Definition tolower (c : Z) : Z :=
  if (65 <=? c) && (c <=? 90) then c + 32 else c.

(** [std::lexicographical_compare] with a comparison object. *)
Fixpoint lexicographical_compare {A : Type} (comp : A -> A -> bool)
    (r1 r2 : list A) : bool :=
  match r1, r2 with
  | x :: r1', y :: r2' =>
      if comp x y then true
      else if comp y x then false
      else lexicographical_compare comp r1' r2'
  | [], _ :: _ => true
  | _, [] => false
  end.

(** [CaseInsensitiveLess::operator()]. *)
Definition CaseInsensitiveLess (s1 s2 : string) : bool :=
  lexicographical_compare
    (fun c1 c2 => tolower (int_of_char c1) <? tolower (int_of_char c2))
    (list_ascii_of_string s1) (list_ascii_of_string s2).

(** Equivalence induced by the comparator: neither string is less than the
    other.  This is how [std::map] decides that two keys are the same, and
    what [Option::operator==] computes. *)
Definition ci_equiv (s1 s2 : string) : bool :=
  negb (CaseInsensitiveLess s1 s2) && negb (CaseInsensitiveLess s2 s1).

(** The characters of a string after [tolower], as the comparator sees
    them. *)
Definition lowered (s : string) : list Z :=
  map (fun c => tolower (int_of_char c)) (list_ascii_of_string s).

(** ** Numbers read from text *)

(** The two exceptions [std::stof] can throw. *)
Inductive exception : Set :=
| invalid_argument
| out_of_range.

(** What a call of [std::stof] does: it yields a [float] (IEEE binary32,
    as a [spec_float] with 24 bits of precision) or throws. *)
Inductive stof_result : Set :=
| Value (x : spec_float)
| Throw (e : exception).

Definition float_prec : Z := 24.
Definition float_emax : Z := 128.

(** Conversion of an [int] to [float], applied by the language to [min]
    and [max] when they are compared with the result of [stof]. *)
Definition float_of_int (n : Z) : spec_float :=
  binary_normalize float_prec float_emax n 0 false.

(** ** The Option class *)

(** The [OnChange] function pointers of the file. *)
Inductive OnChange : Set :=
| on_clear_hash | on_hash_size | on_logger | on_threads | on_tb_path
| on_book1_file | on_book2_file | on_exp_enabled | on_exp_file
| on_use_NNUE | on_eval_file.

(** The data members of [Option].  [idx] is set by no constructor: [None]
    stands for that indeterminate value.  [on_change] is [None] for a null
    pointer. *)
Record Option : Set := mkOption {
  defaultValue : string;
  currentValue : string;
  type : string;
  min : Z;
  max : Z;
  idx : option Z;
  on_change : option OnChange
}.

Definition set_currentValue (o : Option) (v : string) : Option :=
  mkOption (defaultValue o) v (type o) (min o) (max o) (idx o) (on_change o).

Definition set_idx (o : Option) (i : Z) : Option :=
  mkOption (defaultValue o) (currentValue o) (type o) (min o) (max o)
           (Some i) (on_change o).

(** [std::to_string] of a [double] holding an integer: printf's "%f"
    writes the digits of the integer and six zero decimals.  Every spin
    option of the file is declared with an integer literal. *)
Definition to_string_double (v : Z) : string :=
  DecimalString.NilZero.string_of_int (Z.to_int v) ++ ".000000".

(** [Option(const char* v, OnChange f)] *)
Definition Option_string (v : string) (f : option OnChange) : Option :=
  mkOption v v "string" 0 0 None f.

(** [Option(bool v, OnChange f)] *)
Definition Option_check (v : bool) (f : option OnChange) : Option :=
  let s := if v then "true" else "false" in
  mkOption s s "check" 0 0 None f.

(** [Option(OnChange f)], also the default constructor. *)
Definition Option_button (f : option OnChange) : Option :=
  mkOption "" "" "button" 0 0 None f.

(** [Option(double v, int minv, int maxv, OnChange f)] *)
Definition Option_spin (v minv maxv : Z) (f : option OnChange) : Option :=
  let s := to_string_double v in
  mkOption s s "spin" minv maxv None f.

(** [Option(const char* v, const char* cur, OnChange f)] *)
Definition Option_combo (v cur : string) (f : option OnChange) : Option :=
  mkOption v cur "combo" 0 0 None f.

(** [Option::operator==], the comparison with a C string. *)
Definition Option_eq (this : Option) (s : string) : bool :=
  negb (CaseInsensitiveLess (currentValue this) s)
  && negb (CaseInsensitiveLess s (currentValue this)).

(** [Option::operator std::string()]: [None] when the assertion on the
    type fails. *)
Definition Option_to_string (this : Option) : option string :=
  if type this == "string" then Some (currentValue this) else None.

(** A number lies within the inclusive range of two [int] bounds, the
    bounds taken as floats the way the comparisons of the code take
    them. *)
Definition in_range (x : spec_float) (lo hi : Z) : bool :=
  SFleb (float_of_int lo) x && SFleb x (float_of_int hi).

(** ** OptionsMap: [std::map<std::string, Option, CaseInsensitiveLess>] *)

(** The entries in the order the map iterates them, which is the order of
    the comparator. *)
Definition OptionsMap : Set := list (string * Option).

(** [om.count(k)]: the search walks to the first key not less than [k]
    and tests that [k] is not less than it either. *)
Fixpoint om_count (om : OptionsMap) (k : string) : Z :=
  match om with
  | [] => 0
  | (k', _) :: rest =>
      if CaseInsensitiveLess k' k then om_count rest k
      else if CaseInsensitiveLess k k' then 0
      else 1
  end.

(** The entry [om[k]] refers to when the key is present. *)
Fixpoint om_find (om : OptionsMap) (k : string) : option Option :=
  match om with
  | [] => None
  | (k', o) :: rest =>
      if CaseInsensitiveLess k' k then om_find rest k
      else if CaseInsensitiveLess k k' then None
      else Some o
  end.

(** Storing [o] through the reference [om[k]]: the entry with an
    equivalent key keeps its key and takes the new value; without such an
    entry [operator[]] inserts one under [k] at its place in the order. *)
Fixpoint om_put (om : OptionsMap) (k : string) (o : Option) : OptionsMap :=
  match om with
  | [] => [(k, o)]
  | (k', o') :: rest =>
      if CaseInsensitiveLess k' k then (k', o') :: om_put rest k o
      else if CaseInsensitiveLess k k' then (k, o) :: om
      else (k', o) :: rest
  end.

(** [om[k]] read as a value: the entry, or the default constructed
    [Option] that [operator[]] inserts. *)
Definition om_subscript (om : OptionsMap) (k : string) : Option :=
  match om_find om k with
  | Some o => o
  | None => Option_button None
  end.

(** The entries are in strictly ascending order of their keys, the
    invariant of [std::map]. *)
Fixpoint om_sorted (om : OptionsMap) : bool :=
  match om with
  | [] => true
  | (k, _) :: rest =>
      match rest with
      | [] => true
      | (k', _) :: _ => CaseInsensitiveLess k k' && om_sorted rest
      end
  end.

(** ** The state outside the objects *)

(** [insert_order] is the static local of [Option::operator<<], of type
    [size_t]; [on_change_calls] records each call made through an
    [on_change] pointer with the option it was given. *)
Record World : Set := mkWorld {
  insert_order : Z;
  on_change_calls : list (OnChange * Option)
}.

Definition size_t_modulus : Z := 2 ^ 64.

(** [Option::operator<<]: [*this = o; idx = insert_order++;] *)
Definition Option_shl (this o : Option) (w : World) : Option * World :=
  (set_idx o (insert_order w),
   mkWorld ((insert_order w + 1) mod size_t_modulus) (on_change_calls w)).

(** [om[name] << o], the statement [init] is made of. *)
Definition declare (om : OptionsMap) (name : string) (o : Option)
    (w : World) : OptionsMap * World :=
  let (this', w') := Option_shl (om_subscript om name) o w in
  (om_put om name this', w').

(** ** Tokens of a string stream *)

(** [isspace] in the "C" locale. *)
Definition isspace (c : ascii) : bool :=
  let n := N_of_ascii c in
  ((9 <=? n) && (n <=? 13) || (n =? 32))%N.

(** The tokens [ss >> token] reads one after the other until it fails:
    the maximal runs of characters that are not white space.  [cur] is
    the token being read. *)
Fixpoint tokens_from (s : string) (cur : string) : list string :=
  match s with
  | EmptyString => if cur == "" then [] else [cur]
  | String c s' =>
      if isspace c
      then (if cur == "" then tokens_from s' "" else cur :: tokens_from s' "")
      else tokens_from s' (cur ++ String c EmptyString)
  end.

Definition tokens (s : string) : list string := tokens_from s "".

(** ** A model of [std::stof]

    [std::stof(v)] calls [strtof] on the characters of [v]: white space is
    skipped, then an optional sign, then the longest prefix that is
    "inf", "nan", a hexadecimal or a decimal floating constant is
    converted, rounding to the nearest float with ties to even.  What
    follows that prefix is ignored.  Without such a prefix the call throws
    [std::invalid_argument]; when [strtof] reports a range error
    (overflow, or a result that is tiny and inexact) it throws
    [std::out_of_range]. *)

Fixpoint skip_space (s : string) : string :=
  match s with
  | String c s' => if isspace c then skip_space s' else s
  | EmptyString => s
  end.

Definition read_sign (s : string) : bool * string :=
  match s with
  | String "-" s' => (true, s')
  | String "+" s' => (false, s')
  | _ => (false, s)
  end.

(** [p] is in lower case; the result is what follows [p] in [s] when [s]
    starts with [p] up to case. *)
Fixpoint strip_prefix_nocase (p s : string) : option string :=
  match p, s with
  | EmptyString, _ => Some s
  | String a p', String c s' =>
      if tolower (int_of_char c) =? int_of_char a
      then strip_prefix_nocase p' s' else None
  | String _ _, EmptyString => None
  end.

Definition digit_value (c : ascii) : option Z :=
  let n := Z.of_N (N_of_ascii c) in
  if (48 <=? n) && (n <=? 57) then Some (n - 48) else None.

Definition xdigit_value (c : ascii) : option Z :=
  let n := Z.of_N (N_of_ascii c) in
  if (48 <=? n) && (n <=? 57) then Some (n - 48)
  else if (97 <=? n) && (n <=? 102) then Some (n - 87)
  else if (65 <=? n) && (n <=? 70) then Some (n - 55)
  else None.

(** Reads digits in base [base]: the number read so far extended by the
    digits, how many were read, and the rest of the text. *)
Fixpoint read_digits (digit : ascii -> option Z) (base : Z) (s : string)
    (acc count : Z) : Z * Z * string :=
  match s with
  | String c s' =>
      match digit c with
      | Some d => read_digits digit base s' (acc * base + d) (count + 1)
      | None => (acc, count, s)
      end
  | EmptyString => (acc, count, s)
  end.

(** The exponent part, introduced by a character accepted by [marker]; it
    counts only when at least one digit follows the optional sign. *)
Definition read_exponent (marker : ascii -> bool) (s : string) : Z :=
  match s with
  | String c s1 =>
      if marker c then
        let (neg, s2) := read_sign s1 in
        let '(e, count, _) := read_digits digit_value 10 s2 0 0 in
        if count =? 0 then 0 else if neg then - e else e
      else 0
  | EmptyString => 0
  end.

(** Digits, an optional point and more digits: the digits as one number,
    how many digits there were in all, how many after the point, and the
    rest. *)
Definition read_mantissa (digit : ascii -> option Z) (base : Z) (s : string)
    : Z * Z * Z * string :=
  let '(m1, n1, r1) := read_digits digit base s 0 0 in
  match r1 with
  | String "." r1' =>
      let '(m2, n2, r2) := read_digits digit base r1' m1 0 in
      (m2, n1 + n2, n2, r2)
  | _ => (m1, n1, 0, r1)
  end.

(** The float nearest to [num / den], for [0 <= num] and [0 < den], with
    the sign [neg].  The quotient is taken with at least 28 significant
    bits and a sticky bit, which [binary_normalize] then rounds. *)
Definition round_ratio (prec emax : Z) (num den : Z) : spec_float :=
  let s := Z.max 0 (28 + Z.log2 den - Z.log2 num) in
  let q := (num * 2 ^ s) / den in
  let sticky := if (num * 2 ^ s) mod den =? 0 then 0 else 1 in
  binary_normalize prec emax (2 * q + sticky) (- s - 1) false.

(** [x] is exactly [num / den]. *)
Definition is_exact (x : spec_float) (num den : Z) : bool :=
  match x with
  | S754_zero _ => num =? 0
  | S754_finite _ m e =>
      if 0 <=? e then Zpos m * 2 ^ e * den =? num
      else Zpos m * den =? num * 2 ^ (- e)
  | _ => false
  end.

(** Tininess is detected after rounding: [num / den] rounded to 24 bits
    with an unbounded exponent is below the least normal float, 2^-126. *)
Definition is_tiny (num den : Z) : bool :=
  match round_ratio float_prec (2 ^ 20) num den with
  | S754_finite _ _ e => e <? -149
  | _ => false
  end.

Definition float_of_ratio (neg : bool) (num den : Z) : stof_result :=
  if num =? 0 then Value (S754_zero neg)
  else
    let x := round_ratio float_prec float_emax num den in
    match x with
    | S754_infinity _ => Throw out_of_range
    | _ =>
        if is_tiny num den && negb (is_exact x num den)
        then Throw out_of_range
        else Value (if neg then SFopp x else x)
    end.

(** The value [m * base ^ e] as a ratio. *)
Definition scaled (neg : bool) (m base e : Z) : stof_result :=
  if 0 <=? e then float_of_ratio neg (m * base ^ e) 1
  else float_of_ratio neg m (base ^ (- e)).

Definition is_e (c : ascii) : bool := (N_of_ascii c =? 101)%N || (N_of_ascii c =? 69)%N.
Definition is_p (c : ascii) : bool := (N_of_ascii c =? 112)%N || (N_of_ascii c =? 80)%N.

Definition parse_decimal (neg : bool) (s : string) : stof_result :=
  let '(m, n, nfrac, rest) := read_mantissa digit_value 10 s in
  if n =? 0 then Throw invalid_argument
  else scaled neg m 10 (read_exponent is_e rest - nfrac).

Definition parse_hex (neg : bool) (s : string) : option stof_result :=
  match strip_prefix_nocase "0x" s with
  | Some s' =>
      let '(m, n, nfrac, rest) := read_mantissa xdigit_value 16 s' in
      if n =? 0 then None
      else Some (scaled neg m 2 (read_exponent is_p rest - 4 * nfrac))
  | None => None
  end.

Definition std_stof (v : string) : stof_result :=
  let (neg, s) := read_sign (skip_space v) in
  match strip_prefix_nocase "inf" s with
  | Some _ => Value (S754_infinity neg)
  | None =>
      match strip_prefix_nocase "nan" s with
      | Some _ => Value S754_nan
      | None =>
          match parse_hex neg s with
          | Some r => r
          | None => parse_decimal neg s
          end
      end
  end.

(** The string holds a white space character. *)
Definition has_space (s : string) : bool :=
  existsb isspace (list_ascii_of_string s).

(** ** Assignment of a textual value *)

(** How a call ends. *)
Inductive completion : Set :=
| Returned
| Threw (e : exception)
| AssertFailed.

Section Assign.

(** [std::stof] is taken as given here; [std_stof] above is a model of
    it. *)
Variable stof : string -> stof_result.

(** The call through [on_change] when the pointer is not null; the
    option is passed as it is at that moment. *)
Definition call_on_change (this : Option) (w : World) : World :=
  match on_change this with
  | Some f => mkWorld (insert_order w) (on_change_calls w ++ [(f, this)])
  | None => w
  end.

(** The loop [while (ss >> token) comboMap[token] << Option();] *)
Fixpoint fill_comboMap (toks : list string) (comboMap : OptionsMap)
    (w : World) : OptionsMap * World :=
  match toks with
  | [] => (comboMap, w)
  | token :: rest =>
      let (comboMap', w') := declare comboMap token (Option_button None) w in
      fill_comboMap rest comboMap' w'
  end.

(** The part of [operator=] after the first test. *)
Definition assign_tail (this : Option) (v : string) (w : World)
    : completion * Option * World :=
  let (reject, w1) :=
    if type this == "combo"
    then
      let (comboMap, w') := fill_comboMap (tokens (defaultValue this)) [] w in
      ((om_count comboMap v =? 0)%Z || (v == "var"), w')
    else (false, w) in
  if reject then (Returned, this, w1)
  else
    let this' :=
      if negb (type this == "button") then set_currentValue this v
      else this in
    (Returned, this', call_on_change this' w1).

(** [Option::operator=(const string& v)].  The result gives how the call
    ended, the object afterwards and the outside state afterwards. *)
Definition Option_assign (this : Option) (v : string) (w : World)
    : completion * Option * World :=
  if type this == "" then (AssertFailed, this, w)
  else if negb (type this == "button") && (v == "") then (Returned, this, w)
  else if (type this == "check") && negb (v == "true") && negb (v == "false")
  then (Returned, this, w)
  else if type this == "spin" then
    match stof v with
    | Throw e => (Threw e, this, w)
    | Value x =>
        if SFltb x (float_of_int (min this))
           || SFltb (float_of_int (max this)) x
        then (Returned, this, w)
        else assign_tail this v w
    end
  else assign_tail this v w.

(** The statement [om[name] = v]: the assignment acts on the entry that
    [operator[]] refers to. *)
Definition OptionsMap_assign (om : OptionsMap) (name v : string) (w : World)
    : completion * OptionsMap * World :=
  let '(c, this', w') := Option_assign (om_subscript om name) v w in
  (c, om_put om name this', w').

(** Assignments to one option, one after the other; an assignment that
    does not return ends the run. *)
Fixpoint assign_all (this : Option) (vs : list string) (w : World)
    : completion * Option * World :=
  match vs with
  | [] => (Returned, this, w)
  | v :: rest =>
      match Option_assign this v w with
      | (Returned, this', w') => assign_all this' rest w'
      | stopped => stopped
      end
  end.

(** [Option::operator double()]: [None] when the assertion on the type
    fails, else the number or what [stof] throws.  The number is given
    as the [float] it is converted from. *)
Definition Option_to_double (this : Option) : option stof_result :=
  if (type this == "check") || (type this == "spin") then
    Some (if type this == "spin" then stof (currentValue this)
          else Value (if currentValue this == "true" then float_of_int 1
                      else S754_zero false))
  else None.

(** The choice test of the specification: the value matches, up to
    case, one of the tokens of [defaultValue]. *)
Definition matches_token (o : Option) (v : string) : bool :=
  existsb (fun t => ci_equiv t v) (tokens (defaultValue o)).

(** The rejection rule of the specification (Write, steps 1 and 2),
    where the number of a Spin value is the one [stof] yields. *)
Definition spec_rejects (o : Option) (v : string) : bool :=
  (negb (type o == "button") && (v == ""))
  || ((type o == "check") && negb (v == "true") && negb (v == "false"))
  || ((type o == "spin")
      && match stof v with
         | Value x => SFltb x (float_of_int (min o))
                      || SFltb (float_of_int (max o)) x
         | Throw _ => false
         end)
  || ((type o == "combo") && (negb (matches_token o v) || (v == "var"))).

(** The stored value of a spin converts to a number within the range. *)
Definition spin_in_range (this : Option) : Prop :=
  type this = "spin"
  /\ exists x, stof (currentValue this) = Value x
               /\ in_range x (min this) (max this) = true.

(** The stored value of a combo matches one of its tokens. *)
Definition combo_is_token (this : Option) : Prop :=
  type this = "combo" /\ matches_token this (currentValue this) = true.

(** The current value of an option passes the rule of its type: a test
    that computes. *)
Definition declared_within_rules (o : Option) : bool :=
  if type o == "spin" then
    match stof (currentValue o) with
    | Value x => in_range x (min o) (max o)
    | Throw _ => false
    end
  else if type o == "combo" then matches_token o (currentValue o)
  else if type o == "check" then
    (currentValue o == "true") || (currentValue o == "false")
  else true.

End Assign.

(** ** Printing the options *)

(** The value the printing loop reads from the [idx] of an entry.  An
    [idx] that was never set holds an indeterminate value: [unset k]
    stands for what the entry under the key [k] holds then, and the
    properties below are stated for every [unset]. *)
Definition idx_read (unset : string -> Z) (it : string * Option) : Z :=
  match idx (snd it) with
  | Some j => j
  | None => unset (fst it)
  end.

(** The inner loop of [operator<<] on a stream: the first entry, in the
    order of the map, whose [idx] is [i]. *)
Definition entry_with_idx (unset : string -> Z) (om : OptionsMap) (i : Z)
    : option (string * Option) :=
  find (fun it => idx_read unset it =? i) om.

(** The entries the two loops of [operator<<] print, in the order they
    are printed: for each [idx] below [om.size()], the entry found. *)
Definition enumerate (unset : string -> Z) (om : OptionsMap)
    : list (string * Option) :=
  flat_map (fun n => match entry_with_idx unset om (Z.of_nat n) with
                     | Some it => [it]
                     | None => []
                     end)
           (seq 0 (List.length om)).

(** Conversion of a [float] to [int]: the fraction is dropped.  The
    language leaves the conversion undefined when the value is not
    finite or does not fit an [int]; [unfit x] stands for the [int] the
    platform yields then. *)
Definition int_of_float (unfit : spec_float -> Z) (x : spec_float) : Z :=
  match x with
  | S754_zero _ => 0
  | S754_finite s m e =>
      let a := if 0 <=? e then Zpos m * 2 ^ e else Zpos m / 2 ^ (- e) in
      let n := if s then - a else a in
      if (- 2 ^ 31 <=? n) && (n <? 2 ^ 31) then n else unfit x
  | _ => unfit x
  end.

Definition string_of_Z (n : Z) : string :=
  DecimalString.NilZero.string_of_int (Z.to_int n).

(** The text printed for one entry; [None] when [stof] throws. *)
Definition print_entry (stof : string -> stof_result)
    (unfit : spec_float -> Z) (it : string * Option) : option string :=
  let o := snd it in
  let head := String "010" "option name " ++ fst it ++ " type " ++ type o in
  let head :=
    if (type o == "string") || (type o == "check") || (type o == "combo")
    then head ++ " default " ++ defaultValue o
    else head in
  if type o == "spin" then
    match stof (defaultValue o) with
    | Value x =>
        Some (head ++ " default " ++ string_of_Z (int_of_float unfit x)
                   ++ " min " ++ string_of_Z (min o)
                   ++ " max " ++ string_of_Z (max o))
    | Throw _ => None
    end
  else Some head.

(** [operator<<(std::ostream&, const OptionsMap&)]: the text written. *)
Fixpoint print_entries (stof : string -> stof_result)
    (unfit : spec_float -> Z) (its : list (string * Option))
    : option string :=
  match its with
  | [] => Some ""
  | it :: rest =>
      match print_entry stof unfit it, print_entries stof unfit rest with
      | Some a, Some b => Some (a ++ b)
      | _, _ => None
      end
  end.

Definition OptionsMap_print (stof : string -> stof_result)
    (unfit : spec_float -> Z) (unset : string -> Z) (om : OptionsMap)
    : option string :=
  print_entries stof unfit (enumerate unset om).

(** ** Sequences of operations on a map *)







(** The name and the rank of an entry: what the order of the printed
    list depends on. *)
Definition key_rank (it : string * Option) : string * option Z :=
  (fst it, idx (snd it)).

(** ** Initialisation *)

(** Declarations made one after the other: [o[name] << opt; ...] *)
Fixpoint declare_all (o : OptionsMap) (decls : list (string * Option))
    (w : World) : OptionsMap * World :=
  match decls with
  | [] => (o, w)
  | (name, opt) :: rest =>
      let (o', w') := declare o name opt w in
      declare_all o' rest w'
  end.

(** The declarations of [UCI::init], in their order.  [Is64Bit] and
    [EvalFileDefaultName] come from headers of the engine. *)
Definition init_declarations (Is64Bit : bool) (EvalFileDefaultName : string)
    : list (string * Option) :=
  let MaxHashMB := if Is64Bit then 33554432 else 2048 in
  [ ("Debug Log File", Option_string "" (Some on_logger));
    ("Contempt", Option_spin 24 (-100) 100 None);
    ("Analysis Contempt",
       Option_combo "Both var Off var White var Black var Both" "Both" None);
    ("Threads", Option_spin 1 1 512 (Some on_threads));
    ("Hash", Option_spin 16 1 MaxHashMB (Some on_hash_size));
    ("Clear Hash", Option_button (Some on_clear_hash));
    ("Ponder", Option_check false None);
    ("MultiPV", Option_spin 1 1 500 None);
    ("Skill Level", Option_spin 20 0 20 None);
    ("Move Overhead", Option_spin 10 0 5000 None);
    ("Minimum Thinking Time", Option_spin 5 0 5000 None);
    ("Slow Mover", Option_spin 100 10 1000 None);
    ("nodestime", Option_spin 0 0 10000 None);
    ("UCI_Chess960", Option_check false None);
    ("UCI_AnalyseMode", Option_check false None);
    ("UCI_LimitStrength", Option_check false None);
    ("UCI_Elo", Option_spin 1350 1350 2850 None);
    ("UCI_ShowWDL", Option_check false None);
    ("SyzygyPath", Option_string "<empty>" (Some on_tb_path));
    ("SyzygyProbeDepth", Option_spin 1 1 100 None);
    ("Syzygy50MoveRule", Option_check true None);
    ("SyzygyProbeLimit", Option_spin 7 0 7 None);
    ("Book1", Option_check false None);
    ("Book1 File", Option_string "<empty>" (Some on_book1_file));
    ("Book1 BestBookMove", Option_check true None);
    ("Book1 Depth", Option_spin 100 1 350 None);
    ("Book2", Option_check false None);
    ("Book2 File", Option_string "<empty>" (Some on_book2_file));
    ("Book2 BestBookMove", Option_check true None);
    ("Book2 Depth", Option_spin 100 1 350 None);
    ("Experience Enabled", Option_check true (Some on_exp_enabled));
    ("Experience File", Option_string "SugaR.exp" (Some on_exp_file));
    ("Experience Readonly", Option_check false None);
    ("Experience Book", Option_check false None);
    ("Experience Book Best Move", Option_check true None);
    ("Experience Book Eval Importance", Option_spin 5 0 10 None);
    ("Experience Book Max Moves", Option_spin 16 1 100 None);
    ("EvalFile", Option_string EvalFileDefaultName (Some on_eval_file));
    ("Use NNUE Evaluation", Option_check true (Some on_use_NNUE));
    ("Use Classical Evaluation", Option_check true None) ].

(** [UCI::init(OptionsMap& o)] *)
Definition init (Is64Bit : bool) (EvalFileDefaultName : string)
    (o : OptionsMap) (w : World) : OptionsMap * World :=
  declare_all o (init_declarations Is64Bit EvalFileDefaultName) w.

(** ** What the specification expects of a printed registry *)

(** The declared options in the order of their declaration, each under
    the name it was declared with and holding the rank it was given,
    the first rank being [c]. *)
Fixpoint ranked (c : Z) (decls : list (string * Option))
    : list (string * Option) :=
  match decls with
  | [] => []
  | (name, o) :: rest => (name, set_idx o c) :: ranked (c + 1) rest
  end.

(** No two of the names are equal up to case. *)
Fixpoint distinct_names (names : list string) : bool :=
  match names with
  | [] => true
  | n :: rest =>
      forallb (fun m => negb (ci_equiv m n)) rest && distinct_names rest
  end.

(** ** Options and states used in examples *)

(** The "Hash" option of [init] on a 64 bit build. *)
Definition hash_option : Option :=
  Option_spin 16 1 33554432 (Some on_hash_size).

(** The "Analysis Contempt" option of [init]. *)
Definition contempt_option : Option :=
  Option_combo "Both var Off var White var Black var Both" "Both" None.

(** The state of a process that has declared nothing yet. *)
Definition fresh_world : World := mkWorld 0 [].

(** * Properties *)

(** ** The comparator *)

Section Comparator.

Let lex := lexicographical_compare Z.ltb.

Lemma CaseInsensitiveLess_lowered (s1 s2 : string) :
  CaseInsensitiveLess s1 s2 = lex (lowered s1) (lowered s2).
Proof.
  unfold CaseInsensitiveLess, lowered, lex.
  generalize (list_ascii_of_string s2) as l2.
  induction (list_ascii_of_string s1) as [|a l1 IH]; intros [|b l2]; simpl; auto.
  rewrite IH. reflexivity.
Qed.

Lemma lex_irrefl (l : list Z) : lex l l = false.
Proof.
  induction l as [|x l IH]; simpl; auto.
  unfold lex in *. simpl. rewrite Z.ltb_irrefl. exact IH.
Qed.

Lemma lex_both_false (l1 l2 : list Z) :
  lex l1 l2 = false -> lex l2 l1 = false -> l1 = l2.
Proof.
  unfold lex. revert l2.
  induction l1 as [|x l1 IH]; intros [|y l2]; simpl; try discriminate; auto.
  destruct (Z.ltb_spec x y); [discriminate|].
  destruct (Z.ltb_spec y x); [discriminate|].
  intros H1 H2. assert (x = y) by lia. subst y.
  f_equal. apply IH; assumption.
Qed.

Lemma lex_trans (l1 l2 l3 : list Z) :
  lex l1 l2 = true -> lex l2 l3 = true -> lex l1 l3 = true.
Proof.
  unfold lex. revert l2 l3.
  induction l1 as [|x l1 IH]; intros [|y l2] [|z l3]; simpl;
    try discriminate; auto.
  destruct (Z.ltb_spec x y), (Z.ltb_spec y z), (Z.ltb_spec x z);
    try lia; auto;
    destruct (Z.ltb_spec y x); try lia; try discriminate;
    destruct (Z.ltb_spec z y); try lia; try discriminate;
    destruct (Z.ltb_spec z x); try lia; try discriminate.
  apply IH.
Qed.

Lemma lex_asym (l1 l2 : list Z) : lex l1 l2 = true -> lex l2 l1 = false.
Proof.
  intros H. destruct (lex l2 l1) eqn:E; auto.
  pose proof (lex_trans _ _ _ H E) as C. rewrite lex_irrefl in C.
  discriminate.
Qed.

Lemma ci_equiv_lowered (s1 s2 : string) :
  ci_equiv s1 s2 = true <-> lowered s1 = lowered s2.
Proof.
  unfold ci_equiv. rewrite !CaseInsensitiveLess_lowered. split.
  - intros H. apply andb_prop in H. destruct H as [H1 H2].
    apply negb_true_iff in H1, H2. apply lex_both_false; assumption.
  - intros ->. rewrite lex_irrefl. reflexivity.
Qed.

Lemma ci_equiv_false_lowered (s1 s2 : string) :
  ci_equiv s1 s2 = false <-> lowered s1 <> lowered s2.
Proof.
  rewrite <- ci_equiv_lowered. destruct (ci_equiv s1 s2); split; congruence.
Qed.

Lemma less_trans (a b c : string) :
  CaseInsensitiveLess a b = true -> CaseInsensitiveLess b c = true ->
  CaseInsensitiveLess a c = true.
Proof. rewrite !CaseInsensitiveLess_lowered. apply lex_trans. Qed.

Lemma less_asym (a b : string) :
  CaseInsensitiveLess a b = true -> CaseInsensitiveLess b a = false.
Proof. rewrite !CaseInsensitiveLess_lowered. apply lex_asym. Qed.

Lemma less_equiv_l (a a' b : string) :
  ci_equiv a a' = true -> CaseInsensitiveLess a b = CaseInsensitiveLess a' b.
Proof.
  intros H. apply ci_equiv_lowered in H.
  rewrite !CaseInsensitiveLess_lowered, H. reflexivity.
Qed.

Lemma less_equiv_r (a b b' : string) :
  ci_equiv b b' = true -> CaseInsensitiveLess a b = CaseInsensitiveLess a b'.
Proof.
  intros H. apply ci_equiv_lowered in H.
  rewrite !CaseInsensitiveLess_lowered, H. reflexivity.
Qed.

Lemma ci_equiv_refl (a : string) : ci_equiv a a = true.
Proof. apply ci_equiv_lowered. reflexivity. Qed.

Lemma ci_equiv_sym (a b : string) : ci_equiv a b = ci_equiv b a.
Proof. unfold ci_equiv. apply andb_comm. Qed.

Lemma ci_equiv_split (a b : string) :
  CaseInsensitiveLess a b = false -> CaseInsensitiveLess b a = false ->
  ci_equiv a b = true.
Proof. unfold ci_equiv. intros -> ->. reflexivity. Qed.

Lemma length_lowered (s : string) :
  List.length (lowered s) = String.length s.
Proof.
  unfold lowered. rewrite length_map.
  induction s as [|c s IH]; simpl; auto.
Qed.

End Comparator.

(** ** The map *)

(** Turns the comparisons of the context into facts about lowered
    character lists and closes the goal when they contradict the order. *)
Ltac order_facts :=
  repeat match goal with
  | H : ci_equiv _ _ = true |- _ => apply ci_equiv_lowered in H
  | H : ci_equiv _ _ = false |- _ => apply ci_equiv_false_lowered in H
  | H : CaseInsensitiveLess _ _ = _ |- _ =>
      rewrite CaseInsensitiveLess_lowered in H
  end.

Ltac order_close :=
  order_facts;
  repeat match goal with
  | H1 : lexicographical_compare Z.ltb ?a ?b = false,
    H2 : lexicographical_compare Z.ltb ?b ?a = false |- _ =>
      let E := fresh "E" in
      pose proof (lex_both_false a b H1 H2) as E; clear H2;
      try rewrite E in *
  end;
  repeat match goal with
  | H : lexicographical_compare Z.ltb ?a ?a = true |- _ =>
      rewrite lex_irrefl in H; discriminate H
  | H1 : lexicographical_compare Z.ltb ?a ?b = true,
    H2 : lexicographical_compare Z.ltb ?b ?a = true |- _ =>
      rewrite (lex_asym a b H1) in H2; discriminate H2
  | H1 : lexicographical_compare Z.ltb ?a ?b = true,
    H2 : lexicographical_compare Z.ltb ?b ?c = true,
    H3 : lexicographical_compare Z.ltb ?a ?c = false |- _ =>
      rewrite (lex_trans a b c H1 H2) in H3; discriminate H3
  | H1 : lexicographical_compare Z.ltb ?a ?b = true,
    H2 : lexicographical_compare Z.ltb ?b ?c = true,
    H3 : lexicographical_compare Z.ltb ?c ?a = true |- _ =>
      rewrite (lex_asym a c (lex_trans a b c H1 H2)) in H3; discriminate H3
  | H : ?a <> ?a |- _ => elim H; reflexivity
  | H : ?a = ?b, N : ?a <> ?b |- _ => elim N; exact H
  | H : ?a = ?b, N : ?b <> ?a |- _ => elim N; symmetry; exact H
  end;
  try congruence.

Section MapLemmas.

Lemma om_count_put (om : OptionsMap) (k k' : string) (o : Option) :
  om_count (om_put om k o) k'
  = if ci_equiv k k' then 1 else om_count om k'.
Proof.
  induction om as [|[k1 o1] rest IH]; simpl.
  - unfold ci_equiv.
    destruct (CaseInsensitiveLess k k'), (CaseInsensitiveLess k' k);
      reflexivity.
  - destruct (CaseInsensitiveLess k1 k) eqn:L1; simpl.
    + rewrite IH.
      destruct (ci_equiv k k') eqn:Q;
        destruct (CaseInsensitiveLess k1 k') eqn:L2; auto;
        destruct (CaseInsensitiveLess k' k1) eqn:L3; auto; order_close.
    + destruct (CaseInsensitiveLess k k1) eqn:L2; simpl;
        destruct (ci_equiv k k') eqn:Q;
        destruct (CaseInsensitiveLess k k') eqn:L3;
        destruct (CaseInsensitiveLess k' k) eqn:L4;
        destruct (CaseInsensitiveLess k1 k') eqn:L5;
        destruct (CaseInsensitiveLess k' k1) eqn:L6;
        auto; order_close.
Qed.

Lemma om_find_put (om : OptionsMap) (k k' : string) (o : Option) :
  om_find (om_put om k o) k'
  = if ci_equiv k k' then Some o else om_find om k'.
Proof.
  induction om as [|[k1 o1] rest IH]; simpl.
  - unfold ci_equiv.
    destruct (CaseInsensitiveLess k k'), (CaseInsensitiveLess k' k);
      reflexivity.
  - destruct (CaseInsensitiveLess k1 k) eqn:L1; simpl.
    + rewrite IH.
      destruct (ci_equiv k k') eqn:Q;
        destruct (CaseInsensitiveLess k1 k') eqn:L2; auto;
        destruct (CaseInsensitiveLess k' k1) eqn:L3; auto; order_close.
    + destruct (CaseInsensitiveLess k k1) eqn:L2; simpl;
        destruct (ci_equiv k k') eqn:Q;
        destruct (CaseInsensitiveLess k k') eqn:L3;
        destruct (CaseInsensitiveLess k' k) eqn:L4;
        destruct (CaseInsensitiveLess k1 k') eqn:L5;
        destruct (CaseInsensitiveLess k' k1) eqn:L6;
        auto; order_close.
Qed.

(** An entry that is present keeps its key and its place when a value
    of the same rank is stored through it. *)
Lemma om_put_present (om : OptionsMap) (k : string) (o o0 : Option) :
  om_find om k = Some o0 -> idx o = idx o0 ->
  map key_rank (om_put om k o) = map key_rank om.
Proof.
  intros F I. induction om as [|[k1 o1] rest IH]; simpl in *; [discriminate|].
  destruct (CaseInsensitiveLess k1 k).
  - simpl. now rewrite IH.
  - destruct (CaseInsensitiveLess k k1); [discriminate|].
    injection F as ->. simpl. unfold key_rank. simpl. now rewrite I.
Qed.

Lemma om_count_find (om : OptionsMap) (k : string) :
  om_count om k = 1 <-> exists o, om_find om k = Some o.
Proof.
  induction om as [|[k1 o1] rest IH]; simpl.
  - split; [discriminate | intros [o H]; discriminate].
  - destruct (CaseInsensitiveLess k1 k); auto.
    destruct (CaseInsensitiveLess k k1).
    + split; [discriminate | intros [o H]; discriminate].
    + split; eauto.
Qed.


End MapLemmas.

(** ** The token map of a combo assignment *)

Section ComboMap.

Lemma fill_comboMap_calls (toks : list string) :
  forall om w,
    on_change_calls (snd (fill_comboMap toks om w)) = on_change_calls w.
Proof.
  induction toks as [|t rest IH]; intros om w; simpl; auto.
  rewrite IH. reflexivity.
Qed.

Lemma fill_comboMap_count (toks : list string) (v : string) :
  forall om w,
    om_count (fst (fill_comboMap toks om w)) v
    = if existsb (fun t => ci_equiv t v) toks then 1 else om_count om v.
Proof.
  induction toks as [|t rest IH]; intros om w; simpl; auto.
  rewrite IH, om_count_put.
  destruct (ci_equiv t v), (existsb (fun t0 => ci_equiv t0 v) rest);
    reflexivity.
Qed.

Lemma fill_comboMap_counter (toks : list string) :
  forall om w,
    0 <= insert_order w < size_t_modulus ->
    insert_order (snd (fill_comboMap toks om w))
    = (insert_order w + Z.of_nat (List.length toks)) mod size_t_modulus.
Proof.
  induction toks as [|t rest IH]; intros om w R.
  - simpl. rewrite Z.add_0_r, Z.mod_small; auto.
  - cbn [fill_comboMap declare Option_shl]. rewrite IH.
    + cbn [insert_order]. rewrite Z.add_mod_idemp_l by (unfold size_t_modulus; lia).
      f_equal. rewrite length_cons. lia.
    + cbn [insert_order]. apply Z.mod_pos_bound. unfold size_t_modulus. lia.
Qed.

Lemma tokens_from_nonempty (s : string) :
  forall cur t, In t (tokens_from s cur) -> t <> "".
Proof.
  induction s as [|c s IH]; intros cur t; simpl.
  - destruct (cur == "") eqn:E; simpl; [tauto|].
    intros [<-|[]]. now apply String.eqb_neq.
  - destruct (isspace c).
    + destruct (cur == "") eqn:E; simpl.
      * apply IH.
      * intros [<-|H]; [now apply String.eqb_neq | eapply IH; eauto].
    + apply IH.
Qed.

Lemma ci_equiv_empty (t : string) : ci_equiv t "" = true -> t = "".
Proof.
  intros H. apply ci_equiv_lowered in H.
  destruct t; auto. discriminate.
Qed.

Lemma no_token_matches_empty (s : string) :
  existsb (fun t => ci_equiv t "") (tokens s) = false.
Proof.
  destruct (existsb _ _) eqn:E; auto.
  apply existsb_exists in E. destruct E as (t & Hin & Q).
  apply ci_equiv_empty in Q. subst t.
  exfalso. eapply tokens_from_nonempty; eauto.
Qed.

End ComboMap.

(** ** Floats *)

Section FloatFacts.

Lemma shr_1_nonneg (mrs : shr_record) :
  0 <= shr_m mrs -> 0 <= shr_m (shr_1 mrs).
Proof.
  destruct mrs as [m r t]. simpl.
  destruct m as [|[p|p|]|[p|p|]]; simpl; lia.
Qed.

Lemma iter_shr_1_nonneg (p : positive) :
  forall mrs, 0 <= shr_m mrs -> 0 <= shr_m (iter_pos shr_1 p mrs).
Proof.
  induction p as [p IH|p IH|]; intros mrs H; simpl.
  - apply IH, IH, shr_1_nonneg, H.
  - apply IH, IH, H.
  - apply shr_1_nonneg, H.
Qed.

Lemma shr_fexp_nonneg (prec emax m e : Z) (l : location) :
  0 <= m -> 0 <= shr_m (fst (shr_fexp prec emax m e l)).
Proof.
  intros H. unfold shr_fexp, shr.
  assert (H0 : 0 <= shr_m (shr_record_of_loc m l)).
  { destruct l as [|[]]; simpl; exact H. }
  destruct (fexp prec emax (Zdigits2 m + e) - e); simpl; auto.
  apply iter_shr_1_nonneg, H0.
Qed.

Lemma binary_round_aux_not_nan (prec emax : Z) (sx : bool) (mx ex : Z)
    (lx : location) :
  0 <= mx -> binary_round_aux prec emax sx mx ex lx <> S754_nan.
Proof.
  intros H. unfold binary_round_aux.
  pose proof (shr_fexp_nonneg prec emax mx ex lx H) as H1.
  destruct (shr_fexp prec emax mx ex lx) as [mrs' e']. simpl in H1.
  assert (H2 : 0 <= round_nearest_even (shr_m mrs') (loc_of_shr_record mrs')).
  { unfold round_nearest_even.
    destruct (loc_of_shr_record mrs') as [|[]]; try lia.
    destruct (Z.even (shr_m mrs')); lia. }
  pose proof (shr_fexp_nonneg prec emax _ e' loc_Exact H2) as H3.
  destruct (shr_fexp prec emax _ e' loc_Exact) as [mrs'' e'']. simpl in H3.
  destruct (shr_m mrs'') as [|m|m]; try discriminate; [|lia].
  destruct (e'' <=? emax - prec); discriminate.
Qed.

Lemma float_of_int_not_nan (n : Z) : float_of_int n <> S754_nan.
Proof.
  unfold float_of_int, binary_normalize, binary_round.
  destruct n as [|m|m]; [discriminate| |];
    destruct (shl_align _ _ _) as [mz ez];
    apply binary_round_aux_not_nan; lia.
Qed.

Lemma SFcompare_swap (x y : spec_float) :
  SFcompare y x = option_map CompOpp (SFcompare x y).
Proof.
  destruct x as [s|s| |s m e], y as [s'|s'| |s' m' e']; simpl; auto;
    try (destruct s, s'; reflexivity); try (destruct s; reflexivity);
    try (destruct s'; reflexivity).
  destruct s, s'; simpl; auto; rewrite (Z.compare_antisym e e');
    destruct (e ?= e'); simpl; auto;
    rewrite ?CompOpp_involutive, ?Pos.compare_cont_antisym; reflexivity.
Qed.

(** A number that is neither below the lower bound nor above the upper
    one lies within the range, unless it is a NaN. *)
Lemma not_outside_in_range (x : spec_float) (lo hi : Z) :
  x <> S754_nan ->
  SFltb x (float_of_int lo) = false ->
  SFltb (float_of_int hi) x = false ->
  in_range x lo hi = true.
Proof.
  intros N L H. unfold in_range, SFleb, SFltb in *.
  pose proof (float_of_int_not_nan lo) as Nlo.
  pose proof (float_of_int_not_nan hi) as Nhi.
  rewrite (SFcompare_swap x (float_of_int lo)).
  rewrite (SFcompare_swap (float_of_int hi) x).
  destruct (SFcompare x (float_of_int lo)) as [[]|] eqn:C1;
    try discriminate;
    destruct (SFcompare (float_of_int hi) x) as [[]|] eqn:C2;
    try discriminate; simpl; auto; exfalso.
  all: destruct x, (float_of_int lo), (float_of_int hi);
    simpl in *; congruence.
Qed.

End FloatFacts.

(** ** Assignment *)

Section AssignProperties.

Variable stof : string -> stof_result.

Lemma assign_tail_not_combo (this : Option) (v : string) (w : World) :
  (type this == "combo") = false ->
  assign_tail this v w
  = let this' := if type this == "button" then this
                 else set_currentValue this v in
    (Returned, this', call_on_change this' w).
Proof.
  intros T. unfold assign_tail. rewrite T.
  destruct (type this == "button"); reflexivity.
Qed.

Lemma assign_tail_combo (this : Option) (v : string) (w : World) :
  type this = "combo" ->
  assign_tail this v w
  = let w1 := snd (fill_comboMap (tokens (defaultValue this)) [] w) in
    if matches_token this v && negb (v == "var")
    then (Returned, set_currentValue this v,
          call_on_change (set_currentValue this v) w1)
    else (Returned, this, w1).
Proof.
  intros T. unfold assign_tail, matches_token. rewrite T. simpl.
  pose proof (fill_comboMap_count (tokens (defaultValue this)) v [] w) as C.
  destruct (fill_comboMap (tokens (defaultValue this)) [] w) as [comboMap w1].
  simpl in *. rewrite C.
  destruct (existsb _ _); simpl; auto.
  destruct (v == "var"); reflexivity.
Qed.

Lemma call_on_change_calls (this : Option) (w : World) :
  on_change_calls (call_on_change this w)
  = (on_change_calls w
     ++ match on_change this with Some f => [(f, this)] | None => [] end)%list.
Proof.
  unfold call_on_change. destruct (on_change this); simpl; auto.
  now rewrite app_nil_r.
Qed.

(** Splits on the type string of [this]; the impossible combinations
    are closed. *)
Ltac type_cases this :=
  destruct (type this == "") eqn:T0;
  destruct (type this == "button") eqn:Tb;
  destruct (type this == "check") eqn:Tc;
  destruct (type this == "spin") eqn:Ts;
  destruct (type this == "combo") eqn:Tk;
  try (exfalso;
       repeat match goal with
              | H : (_ == _) = true |- _ => apply String.eqb_eq in H
              end;
       congruence).

Ltac wrong_type :=
  let E := fresh "E" in
  intros E; exfalso;
  repeat match goal with
         | H : (_ == _) = false |- _ => apply String.eqb_neq in H
         end;
  congruence.

(** What an assignment does, in every case. *)
Lemma Option_assign_outcome (this : Option) (v : string) (w : World) :
  type this <> "" ->
  let '(c, this', w') := Option_assign stof this v w in
  match c with
  | AssertFailed => False
  | Threw e =>
      type this = "spin" /\ (v == "") = false /\ stof v = Throw e
      /\ this' = this /\ w' = w
  | Returned =>
      if spec_rejects stof this v
      then this' = this /\ on_change_calls w' = on_change_calls w
      else this' = (if type this == "button" then this
                    else set_currentValue this v)
           /\ on_change_calls w'
              = (on_change_calls w
                 ++ match on_change this with
                    | Some f => [(f, this')]
                    | None => []
                    end)%list
  end.
Proof.
  intros NE. unfold Option_assign, spec_rejects.
  type_cases this; simpl.
  - (* button *)
    rewrite assign_tail_not_combo by assumption. rewrite Tb. cbn zeta. simpl.
    rewrite call_on_change_calls. auto.
  - (* check *)
    destruct (v == "") eqn:V; simpl; auto.
    destruct (negb (v == "true") && negb (v == "false")); simpl; auto.
    rewrite assign_tail_not_combo by assumption. rewrite Tb. cbn zeta. simpl.
    rewrite call_on_change_calls. auto.
  - (* spin *)
    apply String.eqb_eq in Ts.
    destruct (v == "") eqn:V; simpl; auto.
    destruct (stof v) as [x|e]; simpl; auto.
    destruct (SFltb x (float_of_int (min this))
              || SFltb (float_of_int (max this)) x); simpl; auto.
    rewrite assign_tail_not_combo by (rewrite Ts; reflexivity).
    rewrite Tb. cbn zeta. simpl.
    rewrite call_on_change_calls. auto.
  - (* combo *)
    apply String.eqb_eq in Tk.
    destruct (v == "") eqn:V; simpl; auto.
    rewrite assign_tail_combo by assumption. cbn zeta. simpl.
    destruct (matches_token this v); simpl;
      [destruct (v == "var"); simpl|];
      rewrite ?call_on_change_calls, ?fill_comboMap_calls; auto.
  - (* a type string that is none of the five *)
    rewrite assign_tail_not_combo by assumption. rewrite Tb. cbn zeta. simpl.
    destruct (v == ""); simpl; auto.
    rewrite call_on_change_calls. auto.
Qed.



(** C1, amended: a value that fails the validation -- an empty value for
    a type other than "button", a value other than "true" and "false"
    for a check, a value that [stof] converts to a number below [min]
    or above [max] for a spin, a value that matches no token or is
    "var" for a combo -- leaves the option as it was, calls no hook and
    the call returns normally.  A spin value that [stof] cannot convert
    is not among them. *)
Theorem invalid_write_is_silent (this : Option) (v : string) (w : World) :
  type this <> "" ->
  (type this <> "button" /\ v = "")
  \/ (type this = "check" /\ v <> "true" /\ v <> "false")
  \/ (type this = "spin"
      /\ exists x, stof v = Value x
                   /\ (SFltb x (float_of_int (min this)) = true
                       \/ SFltb (float_of_int (max this)) x = true))
  \/ (type this = "combo" /\ (matches_token this v = false \/ v = "var")) ->
  let '(c, this', w') := Option_assign stof this v w in
  c = Returned /\ this' = this /\ on_change_calls w' = on_change_calls w.
Proof.
  intros NE Bad. pose proof (Option_assign_outcome this v w NE) as H.
  destruct (Option_assign stof this v w) as [[c this'] w'].
  assert (R : spec_rejects stof this v = true).
  { unfold spec_rejects.
    destruct Bad as [[B ->]|[[T [V1 V2]]|[[T (x & S & O)]|[T M]]]].
    - apply String.eqb_neq in B. rewrite B. reflexivity.
    - rewrite T. apply String.eqb_neq in V1, V2. rewrite V1, V2. simpl.
      now rewrite orb_true_r.
    - rewrite T, S. simpl.
      destruct O as [-> | ->]; simpl; now rewrite ?orb_true_r.
    - rewrite T. simpl. destruct M as [-> | ->]; simpl;
        now rewrite ?orb_true_r. }
  rewrite R in H. destruct c.
  - tauto.
  - destruct H as (T & V & S & _). exfalso.
    destruct Bad as [[B ->]|[[T' _]|[[T' (x & S' & _)]|[T' _]]]];
      try congruence; discriminate.
  - contradiction.
Qed.

Lemma combo_rejects (this : Option) (v : string) :
  type this = "combo" ->
  spec_rejects stof this v
  = negb (matches_token this v && negb (v == "var")).
Proof.
  intros T. unfold spec_rejects. rewrite T. simpl.
  destruct (v == "") eqn:V; simpl.
  - apply String.eqb_eq in V. subst v. unfold matches_token.
    rewrite no_token_matches_empty. reflexivity.
  - destruct (matches_token this v), (v == "var"); reflexivity.
Qed.

(** C3: for a combo, an assignment stores the value and calls the hook
    exactly when the value matches, up to case, a token of
    [defaultValue] split at white space and is not "var"; otherwise the
    option stays as it was.  Assigning "var" never changes the stored
    value. *)
Theorem combo_write_accepted_iff (this : Option) (v : string) (w : World) :
  type this = "combo" ->
  let '(c, this', w') := Option_assign stof this v w in
  c = Returned
  /\ (if matches_token this v && negb (v == "var")
      then this' = set_currentValue this v
           /\ on_change_calls w'
              = (on_change_calls w
                 ++ match on_change this with
                    | Some f => [(f, this')]
                    | None => []
                    end)%list
      else this' = this /\ on_change_calls w' = on_change_calls w)
  /\ (v = "var" -> currentValue this' = currentValue this).
Proof.
  intros T.
  assert (NE : type this <> "") by (rewrite T; discriminate).
  pose proof (Option_assign_outcome this v w NE) as H.
  destruct (Option_assign stof this v w) as [[c this'] w'].
  rewrite (combo_rejects this v T) in H.
  destruct c.
  - split; [reflexivity|].
    destruct (matches_token this v && negb (v == "var")) eqn:A; simpl in H.
    + rewrite T in H. simpl in H. split; [exact H|].
      intros ->. rewrite andb_false_r in A. discriminate.
    + split; [exact H|]. destruct H as [-> _]. reflexivity.
  - destruct H as (S & _). rewrite T in S. discriminate.
  - contradiction.
Qed.

(** C9: for a combo whose token list holds "var", a value equal to
    "var" up to case but not in spelling is accepted: it becomes the
    current value and the hook, when there is one, is called with the
    option holding it. *)
Theorem combo_var_in_other_case_accepted (this : Option) (v : string)
    (w : World) :
  type this = "combo" ->
  In "var" (tokens (defaultValue this)) ->
  ci_equiv v "var" = true ->
  v <> "var" ->
  let '(c, this', w') := Option_assign stof this v w in
  c = Returned
  /\ this' = set_currentValue this v
  /\ currentValue this' = v
  /\ on_change_calls w'
     = (on_change_calls w
        ++ match on_change this with
           | Some f => [(f, set_currentValue this v)]
           | None => []
           end)%list.
Proof.
  intros T I Q NV.
  assert (NE : type this <> "") by (rewrite T; discriminate).
  pose proof (Option_assign_outcome this v w NE) as H.
  destruct (Option_assign stof this v w) as [[c this'] w'].
  rewrite (combo_rejects this v T) in H.
  assert (M : matches_token this v = true).
  { unfold matches_token. apply existsb_exists. exists "var".
    split; [exact I|]. now rewrite ci_equiv_sym. }
  apply String.eqb_neq in NV. rewrite M, NV in H. simpl in H.
  destruct c.
  - rewrite T in H. simpl in H. destruct H as [-> H]. auto.
  - destruct H as (S & _). rewrite T in S. discriminate.
  - contradiction.
Qed.

(** *** Invariants of the stored value *)

Lemma Option_assign_spin_in_range (this : Option) (v : string) (w : World) :
  spin_in_range stof this ->
  stof v <> Value S754_nan ->
  spin_in_range stof (snd (fst (Option_assign stof this v w)))
  /\ min (snd (fst (Option_assign stof this v w))) = min this
  /\ max (snd (fst (Option_assign stof this v w))) = max this.
Proof.
  intros [T I] N. unfold Option_assign. rewrite T. simpl.
  destruct (v == "") eqn:V; simpl; [repeat split; auto|].
  destruct (stof v) as [x|e] eqn:S; simpl; [|repeat split; auto].
  destruct (SFltb x (float_of_int (min this))) eqn:L; simpl;
    [repeat split; auto|].
  destruct (SFltb (float_of_int (max this)) x) eqn:H; simpl;
    [repeat split; auto|].
  rewrite assign_tail_not_combo by (rewrite T; reflexivity).
  rewrite T. simpl. repeat split; auto.
  exists x. split; [exact S|].
  apply not_outside_in_range; auto. congruence.
Qed.

Lemma assign_all_spin_in_range (vs : list string) :
  forall this w,
    spin_in_range stof this ->
    (forall u, In u vs -> stof u <> Value S754_nan) ->
    spin_in_range stof (snd (fst (assign_all stof this vs w)))
    /\ min (snd (fst (assign_all stof this vs w))) = min this
    /\ max (snd (fst (assign_all stof this vs w))) = max this.
Proof.
  induction vs as [|v rest IH]; intros this w I N; simpl; auto.
  destruct (Option_assign_spin_in_range this v w I) as (I' & Lo & Hi).
  { apply N. now left. }
  destruct (Option_assign stof this v w) as [[c this'] w'] eqn:E.
  simpl in I', Lo, Hi.
  destruct c; simpl; auto.
  rewrite <- Lo, <- Hi. apply IH; auto.
  intros u Hu. apply N. now right.
Qed.

(** C2, amended: a spin declared with a default within its range keeps,
    through any sequence of assignments none of whose values converts
    to a NaN, a stored value that reads as a number within the range;
    the bounds are compared as floats, the way the code compares
    them. *)
Theorem spin_value_stays_in_range (v minv maxv : Z) (f : option OnChange)
    (vs : list string) (w : World) :
  (exists x, stof (to_string_double v) = Value x
             /\ in_range x minv maxv = true) ->
  (forall u, In u vs -> stof u <> Value S754_nan) ->
  let '(c, this', w') := assign_all stof (Option_spin v minv maxv f) vs w in
  min this' = minv /\ max this' = maxv
  /\ exists x, Option_to_double stof this' = Some (Value x)
               /\ in_range x minv maxv = true.
Proof.
  intros D N.
  assert (I : spin_in_range stof (Option_spin v minv maxv f)).
  { split; [reflexivity | exact D]. }
  destruct (assign_all_spin_in_range vs _ w I N) as ([T (x & S & R)] & Lo & Hi).
  destruct (assign_all stof (Option_spin v minv maxv f) vs w) as [[c this'] w'].
  simpl in *. repeat split; auto.
  exists x. unfold Option_to_double. rewrite T. simpl.
  rewrite S, <- Lo, <- Hi. auto.
Qed.

Lemma Option_assign_combo_is_token (this : Option) (v : string) (w : World) :
  combo_is_token this ->
  combo_is_token (snd (fst (Option_assign stof this v w)))
  /\ defaultValue (snd (fst (Option_assign stof this v w)))
     = defaultValue this.
Proof.
  intros [T I]. unfold Option_assign. rewrite T. simpl.
  destruct (v == "") eqn:V; simpl; [split; [split|]; auto|].
  rewrite assign_tail_combo by assumption. cbn zeta.
  destruct (matches_token this v) eqn:M; simpl;
    [|split; [split|]; auto].
  destruct (v == "var"); simpl; split; try split; auto.
Qed.

Lemma assign_all_combo_is_token (vs : list string) :
  forall this w,
    combo_is_token this ->
    combo_is_token (snd (fst (assign_all stof this vs w)))
    /\ defaultValue (snd (fst (assign_all stof this vs w)))
       = defaultValue this.
Proof.
  induction vs as [|v rest IH]; intros this w I; simpl; auto.
  destruct (Option_assign_combo_is_token this v w I) as (I' & D).
  destruct (Option_assign stof this v w) as [[c this'] w'] eqn:E.
  simpl in I', D.
  destruct c; simpl; auto.
  rewrite <- D. apply IH; auto.
Qed.

(** C5, amended: a combo declared with an initial value that matches,
    up to case, one of the tokens of its list keeps, through any
    sequence of assignments, a stored value that matches one of those
    tokens. *)
Theorem combo_value_stays_a_token (v cur : string) (f : option OnChange)
    (vs : list string) (w : World) :
  existsb (fun t => ci_equiv t cur) (tokens v) = true ->
  let '(c, this', w') := assign_all stof (Option_combo v cur f) vs w in
  defaultValue this' = v
  /\ existsb (fun t => ci_equiv t (currentValue this')) (tokens v) = true.
Proof.
  intros D.
  assert (I : combo_is_token (Option_combo v cur f)).
  { split; [reflexivity | exact D]. }
  destruct (assign_all_combo_is_token vs _ w I) as ([T M] & E).
  destruct (assign_all stof (Option_combo v cur f) vs w) as [[c this'] w'].
  simpl in *. split; [exact E|].
  unfold matches_token in M. rewrite E in M. exact M.
Qed.

(** *** The counter of insertion ranks *)

Lemma call_on_change_insert_order (this : Option) (w : World) :
  insert_order (call_on_change this w) = insert_order w.
Proof. unfold call_on_change. destruct (on_change this); reflexivity. Qed.

(** C10, amended: the counter of ranks lives outside every map.  An
    assignment of a non-empty value to a combo advances it by one for
    each token read from [defaultValue], repeated tokens included, be
    the value accepted or not; an assignment of the empty value leaves
    it alone.  An option declared next, in any map, takes the advanced
    counter as its rank, which, short of a wrap-around, exceeds every
    rank handed out before by more than the number of tokens. *)
Theorem combo_write_advances_counter (this : Option) (v : string)
    (w : World) :
  type this = "combo" ->
  0 <= insert_order w < size_t_modulus ->
  let n := Z.of_nat (List.length (tokens (defaultValue this))) in
  let '(c, this', w') := Option_assign stof this v w in
  insert_order w'
  = (if v == "" then insert_order w
     else (insert_order w + n) mod size_t_modulus)
  /\ (forall om name o,
        let (om', w'') := declare om name o w' in
        om_find om' name = Some (set_idx o (insert_order w')))
  /\ (v <> "" -> insert_order w + n < size_t_modulus ->
      forall r, r < insert_order w -> r + n < insert_order w').
Proof.
  intros T R n.
  assert (C : insert_order (snd (Option_assign stof this v w))
              = if v == "" then insert_order w
                else (insert_order w + n) mod size_t_modulus).
  { unfold Option_assign. rewrite T. simpl.
    destruct (v == ""); simpl; auto.
    rewrite assign_tail_combo by assumption. cbn zeta.
    destruct (matches_token this v && negb (v == "var")); simpl;
      rewrite ?call_on_change_insert_order;
      apply fill_comboMap_counter; exact R. }
  destruct (Option_assign stof this v w) as [[c this'] w']. simpl in C.
  split; [exact C|]. split.
  - intros om name o. unfold declare, Option_shl.
    rewrite om_find_put, ci_equiv_refl. reflexivity.
  - intros NV B r Hr. rewrite C.
    apply String.eqb_neq in NV. rewrite NV.
    rewrite Z.mod_small by lia. lia.
Qed.

End AssignProperties.

(** ** Names and lookups *)

(** C6: the comparator holds two strings equal, neither less than the
    other, exactly when they have the same length and the same characters
    after lowercasing, position by position.  Hence an option declared
    under a name is the one found under any spelling of that name that
    differs in case only. *)
Theorem comparator_equivalence_and_lookup :
  (forall s1 s2 : string,
      (CaseInsensitiveLess s1 s2 = false /\ CaseInsensitiveLess s2 s1 = false)
      <-> (String.length s1 = String.length s2
           /\ forall i, (i < String.length s1)%nat ->
                        nth i (lowered s1) 0 = nth i (lowered s2) 0))
  /\ (forall (om : OptionsMap) (name name' : string) (o : Option) (w : World),
         ci_equiv name name' = true ->
         let (om', w') := declare om name o w in
         om_find om' name' = Some (set_idx o (insert_order w))
         /\ om_find om' name' = om_find om' name
         /\ om_count om' name' = 1).
Proof.
  split.
  - intros s1 s2. split.
    + intros [L1 L2].
      assert (Q : ci_equiv s1 s2 = true) by now apply ci_equiv_split.
      apply ci_equiv_lowered in Q. split.
      * now rewrite <- !length_lowered, Q.
      * intros i _. now rewrite Q.
    + intros [Len Nth].
      assert (Q : lowered s1 = lowered s2).
      { apply (nth_ext _ _ 0 0).
        - now rewrite !length_lowered.
        - intros n Hn. apply Nth. now rewrite <- length_lowered. }
      apply ci_equiv_lowered in Q. unfold ci_equiv in Q.
      apply andb_prop in Q. destruct Q as [Q1 Q2].
      now apply negb_true_iff in Q1, Q2.
  - intros om name name' o w Q. unfold declare, Option_shl.
    rewrite !om_find_put, om_count_put, Q, ci_equiv_refl. auto.
Qed.

Lemma comparator_equivalence_and_lookup_witness :
  ci_equiv "Threads" "tHREADS" = true
  /\ om_find (fst (declare [] "Threads"
                     (Option_spin 1 1 512 (Some on_threads)) (mkWorld 0 [])))
             "tHREADS"
     = Some (set_idx (Option_spin 1 1 512 (Some on_threads)) 0).
Proof.
  split; [reflexivity|].
  exact (proj1 (proj2 comparator_equivalence_and_lookup [] "Threads" "tHREADS"
                  (Option_spin 1 1 512 (Some on_threads)) (mkWorld 0 [])
                  eq_refl)).
Defined.

(** ** The claims on concrete options *)

(** C1 as stated fails: a spin value without a number in it is not
    ignored, the exception of [stof] leaves the assignment; and a value
    with a number followed by other text is not rejected, it is stored as
    it is. *)
Lemma malformed_spin_value_throws :
  Option_assign std_stof hash_option "abc" fresh_world
  = (Threw invalid_argument, hash_option, fresh_world)
  /\ Option_assign std_stof hash_option "64abc" fresh_world
     = (Returned, set_currentValue hash_option "64abc",
        mkWorld 0 [(on_hash_size, set_currentValue hash_option "64abc")]).
Proof. vm_compute. split; reflexivity. Qed.

Lemma invalid_write_is_silent_witness :
  let '(c, this', w') := Option_assign std_stof hash_option "0" fresh_world in
  c = Returned /\ this' = hash_option
  /\ on_change_calls w' = on_change_calls fresh_world.
Proof.
  apply (invalid_write_is_silent std_stof hash_option "0" fresh_world).
  - discriminate.
  - right. right. left. split; [reflexivity|].
    exists (S754_zero false). split; [reflexivity|]. left. reflexivity.
Defined.

(** C2 as stated fails: "nan" passes both comparisons of the bound test,
    is stored, and reads back as a NaN, which lies in no range; and the
    constructor stores a default without comparing it with the bounds. *)
Lemma spin_accepts_nan :
  (let '(c, this', w') :=
     Option_assign std_stof hash_option "nan" fresh_world in
   c = Returned
   /\ currentValue this' = "nan"
   /\ Option_to_double std_stof this' = Some (Value S754_nan)
   /\ in_range S754_nan (min this') (max this') = false)
  /\ (let this := Option_spin 0 1 10 None in
      Option_to_double std_stof this = Some (Value (S754_zero false))
      /\ in_range (S754_zero false) (min this) (max this) = false).
Proof. vm_compute. repeat split. Qed.

Lemma spin_value_stays_in_range_witness :
  let '(c, this', w') :=
    assign_all std_stof hash_option ["0"; "64"; "1e9"; "128"] fresh_world in
  min this' = 1 /\ max this' = 33554432
  /\ exists x, Option_to_double std_stof this' = Some (Value x)
               /\ in_range x 1 33554432 = true.
Proof.
  apply (spin_value_stays_in_range std_stof 16 1 33554432 (Some on_hash_size)
           ["0"; "64"; "1e9"; "128"] fresh_world).
  - exists (S754_finite false 8388608 (-19)). split; reflexivity.
  - intros u [<-|[<-|[<-|[<-|[]]]]]; vm_compute; discriminate.
Defined.

Lemma combo_write_accepted_iff_witness :
  let '(c, this', w') :=
    Option_assign std_stof contempt_option "black" fresh_world in
  c = Returned
  /\ (if matches_token contempt_option "black" && negb ("black" == "var")
      then this' = set_currentValue contempt_option "black"
           /\ on_change_calls w'
              = (on_change_calls fresh_world
                 ++ match on_change contempt_option with
                    | Some f => [(f, this')]
                    | None => []
                    end)%list
      else this' = contempt_option
           /\ on_change_calls w' = on_change_calls fresh_world)
  /\ ("black" = "var" -> currentValue this' = currentValue contempt_option).
Proof.
  apply (combo_write_accepted_iff std_stof contempt_option "black" fresh_world).
  reflexivity.
Defined.

(** C5 as stated fails: the constructor stores the initial value without
    looking at the list. *)
Lemma combo_declared_outside_its_list :
  let this := Option_combo "A var B" "C" None in
  existsb (fun t => ci_equiv t (currentValue this)) (tokens (defaultValue this))
  = false.
Proof. vm_compute. reflexivity. Qed.

Lemma combo_value_stays_a_token_witness :
  let '(c, this', w') :=
    assign_all std_stof contempt_option ["black"; "Purple"; "var"] fresh_world in
  defaultValue this' = "Both var Off var White var Black var Both"
  /\ existsb (fun t => ci_equiv t (currentValue this'))
             (tokens "Both var Off var White var Black var Both") = true.
Proof.
  apply (combo_value_stays_a_token std_stof
           "Both var Off var White var Black var Both" "Both" None
           ["black"; "Purple"; "var"] fresh_world).
  reflexivity.
Defined.


Lemma combo_var_in_other_case_accepted_witness :
  let '(c, this', w') := Option_assign std_stof contempt_option "VAR" fresh_world in
  c = Returned
  /\ this' = set_currentValue contempt_option "VAR"
  /\ currentValue this' = "VAR"
  /\ on_change_calls w'
     = (on_change_calls fresh_world
        ++ match on_change contempt_option with
           | Some f => [(f, set_currentValue contempt_option "VAR")]
           | None => []
           end)%list.
Proof.
  apply (combo_var_in_other_case_accepted std_stof contempt_option "VAR"
           fresh_world).
  - reflexivity.
  - vm_compute. tauto.
  - reflexivity.
  - discriminate.
Defined.

(** C10 as stated fails: "Both" is read twice and "var" four times, so
    the nine tokens advance the counter by nine, while the map built from
    them holds five entries, one for each distinct token; and the empty
    value is rejected before any token is read. *)
Lemma combo_write_counts_repeated_tokens :
  (let '(c, this', w') :=
     Option_assign std_stof contempt_option "Off" fresh_world in
   insert_order w' - insert_order fresh_world = 9
   /\ List.length
        (fst (fill_comboMap (tokens (defaultValue contempt_option)) []
                            fresh_world)) = 5%nat)
  /\ Option_assign std_stof contempt_option "" fresh_world
     = (Returned, contempt_option, fresh_world).
Proof. vm_compute. repeat split. Qed.

Lemma combo_write_advances_counter_witness :
  let '(c, this', w') := Option_assign std_stof contempt_option "Off" fresh_world in
  insert_order w' = 9.
Proof.
  pose proof (combo_write_advances_counter std_stof contempt_option "Off"
                fresh_world eq_refl) as H.
  cbv zeta in H.
  destruct (Option_assign std_stof contempt_option "Off" fresh_world)
    as [[c this'] w'].
  apply H. vm_compute. split; [discriminate | reflexivity].
Defined.

(** ** Printing by rank *)

Section Enumeration.

Variable unset : string -> Z.

Lemma ranked_length (decls : list (string * Option)) :
  forall c, List.length (ranked c decls) = List.length decls.
Proof.
  induction decls as [|[n o] rest IH]; intros c; simpl; auto.
Qed.









Lemma assign_tail_idx (this : Option) (v : string) (w : World) :
  idx (snd (fst (assign_tail this v w))) = idx this.
Proof.
  unfold assign_tail.
  destruct (type this == "combo");
    [destruct (fill_comboMap _ _ _) as [m w1]|];
    repeat match goal with
           | |- context [if ?b then _ else _] => destruct b
           end; reflexivity.
Qed.

Lemma Option_assign_idx (stof : string -> stof_result) (this : Option)
    (v : string) (w : World) :
  idx (snd (fst (Option_assign stof this v w))) = idx this.
Proof.
  unfold Option_assign.
  destruct (type this == ""); auto.
  destruct (negb (type this == "button") && (v == "")); auto.
  destruct ((type this == "check") && negb (v == "true")
            && negb (v == "false")); auto.
  destruct (type this == "spin"); [|apply assign_tail_idx].
  destruct (stof v) as [x|e]; auto.
  destruct (SFltb x (float_of_int (min this))
            || SFltb (float_of_int (max this)) x); auto.
  apply assign_tail_idx.
Qed.









End Enumeration.



(** ** The Hash scenario *)

(** C8 as stated fails: the value a spin is declared with is stored as
    the text [std::to_string] makes of a [double], "16.000000", and that
    text, not "16", is what stays after the rejected assignment. *)
Lemma hash_value_after_rejection_is_not_16 :
  let (om0, w1) := declare [] "Hash" hash_option fresh_world in
  let '(c1, om1, w2) := OptionsMap_assign std_stof om0 "Hash" "0" w1 in
  option_map currentValue (om_find om1 "Hash") <> Some "16".
Proof. vm_compute. discriminate. Qed.

(** C8, amended: after the declaration of "Hash" as a spin with default
    16 and bounds 1 and 33554432, assigning "0" is rejected and the stored
    value stays "16.000000", which reads as the number 16; assigning "64"
    then is accepted, the stored value is "64", and the hook is called
    once, with the option holding "64". *)
Theorem hash_scenario :
  let (om0, w1) := declare [] "Hash" hash_option fresh_world in
  let '(c1, om1, w2) := OptionsMap_assign std_stof om0 "Hash" "0" w1 in
  let '(c2, om2, w3) := OptionsMap_assign std_stof om1 "Hash" "64" w2 in
  c1 = Returned
  /\ om1 = om0
  /\ option_map currentValue (om_find om1 "Hash") = Some "16.000000"
  /\ option_map (Option_to_double std_stof) (om_find om1 "Hash")
     = Some (Some (Value (float_of_int 16)))
  /\ on_change_calls w2 = []
  /\ c2 = Returned
  /\ option_map currentValue (om_find om2 "Hash") = Some "64"
  /\ on_change_calls w3
     = [(on_hash_size, set_idx (set_currentValue hash_option "64") 0)]
  /\ om_find om2 "Hash" = Some (set_idx (set_currentValue hash_option "64") 0).
Proof. vm_compute. repeat split. Qed.

(** * Further properties of the code *)

(** ** The comparator as an order *)

(** X1: the comparator is a strict weak ordering, as [std::map] requires
    of it: no string is less than itself, being less is transitive, and
    so is being equivalent (neither less than the other). *)
Theorem CaseInsensitiveLess_strict_weak_order :
  (forall a, CaseInsensitiveLess a a = false)
  /\ (forall a b c,
         CaseInsensitiveLess a b = true -> CaseInsensitiveLess b c = true ->
         CaseInsensitiveLess a c = true)
  /\ (forall a b c,
         ci_equiv a b = true -> ci_equiv b c = true -> ci_equiv a c = true).
Proof.
  split; [|split].
  - intros a. rewrite CaseInsensitiveLess_lowered. apply lex_irrefl.
  - apply less_trans.
  - intros a b c H1 H2. apply ci_equiv_lowered in H1, H2.
    apply ci_equiv_lowered. congruence.
Qed.

Lemma CaseInsensitiveLess_strict_weak_order_witness :
  CaseInsensitiveLess "apple" "cherry" = true
  /\ ci_equiv "Hash" "hASH" = true.
Proof.
  split.
  - exact (proj1 (proj2 CaseInsensitiveLess_strict_weak_order)
             "apple" "Banana" "cherry" eq_refl eq_refl).
  - exact (proj2 (proj2 CaseInsensitiveLess_strict_weak_order)
             "Hash" "HASH" "hASH" eq_refl eq_refl).
Defined.

(** X2: a string is less than every proper extension of it and never
    less than one of its prefixes; so the empty string is less than every
    other string and no string is less than the empty one. *)
Theorem CaseInsensitiveLess_prefix (s t : string) :
  CaseInsensitiveLess s (s ++ t) = negb (t == "")
  /\ CaseInsensitiveLess (s ++ t) s = false.
Proof.
  unfold CaseInsensitiveLess.
  induction s as [|c s IH]; simpl.
  - destruct t; simpl; auto.
  - rewrite Z.ltb_irrefl. exact IH.
Qed.

(** ** More on assignment *)

(** Splits on the tests the code makes on the type string. *)
Ltac by_type this :=
  destruct (type this == "") eqn:T0;
  destruct (type this == "button") eqn:Tb;
  destruct (type this == "check") eqn:Tc;
  destruct (type this == "spin") eqn:Ts;
  destruct (type this == "combo") eqn:Tk;
  try (exfalso;
       repeat match goal with
              | H : (_ == _) = true |- _ => apply String.eqb_eq in H
              end;
       congruence).

Section MoreOnAssignment.

Variable stof : string -> stof_result.

(** How the call ends and what the option is afterwards, in closed
    form. *)
Lemma Option_assign_result (this : Option) (v : string) (w : World) :
  fst (Option_assign stof this v w)
  = if type this == "" then (AssertFailed, this)
    else if spec_rejects stof this v then (Returned, this)
    else if type this == "spin" then
      match stof v with
      | Throw e => (Threw e, this)
      | Value _ => (Returned, set_currentValue this v)
      end
    else (Returned,
          if type this == "button" then this else set_currentValue this v).
Proof.
  unfold Option_assign, spec_rejects.
  by_type this; simpl; auto.
  - rewrite assign_tail_not_combo by assumption. rewrite Tb. reflexivity.
  - destruct (v == ""); simpl; auto.
    destruct (negb (v == "true") && negb (v == "false")); simpl; auto.
    rewrite assign_tail_not_combo by assumption. rewrite Tb. reflexivity.
  - destruct (v == ""); simpl; auto.
    destruct (stof v) as [x|e]; simpl; auto.
    destruct (SFltb x (float_of_int (min this))
              || SFltb (float_of_int (max this)) x); simpl; auto.
    rewrite assign_tail_not_combo by assumption. rewrite Tb. reflexivity.
  - apply String.eqb_eq in Tk.
    destruct (v == "") eqn:V; simpl; auto.
    rewrite assign_tail_combo by assumption. cbn zeta.
    destruct (matches_token this v); simpl; auto.
    destruct (v == "var"); reflexivity.
  - destruct (v == ""); simpl; auto.
    rewrite assign_tail_not_combo by assumption. rewrite Tb. reflexivity.
Qed.

Lemma spec_rejects_set_currentValue (this : Option) (u v : string) :
  spec_rejects stof (set_currentValue this u) v = spec_rejects stof this v.
Proof. reflexivity. Qed.

(** X3: an assignment changes nothing of an option but its current
    value: the type, the default, the bounds, the rank and the hook stay,
    and the current value afterwards is the old one or the assigned
    one. *)
Theorem assignment_keeps_declaration (this : Option) (v : string) (w : World) :
  let '(c, this', w') := Option_assign stof this v w in
  type this' = type this
  /\ defaultValue this' = defaultValue this
  /\ min this' = min this /\ max this' = max this
  /\ idx this' = idx this
  /\ on_change this' = on_change this
  /\ (currentValue this' = currentValue this \/ currentValue this' = v).
Proof.
  pose proof (Option_assign_result this v w) as R.
  destruct (Option_assign stof this v w) as [[c this'] w']. simpl in R.
  assert (E : this' = this \/ this' = set_currentValue this v).
  { destruct (type this == ""); [left; congruence|].
    destruct (spec_rejects stof this v); [left; congruence|].
    destruct (type this == "spin").
    - destruct (stof v); [right | left]; congruence.
    - destruct (type this == "button"); [left | right]; congruence. }
  destruct E as [-> | ->]; simpl; tauto.
Qed.

(** X4: an assignment throws exactly when the option is a spin, the value
    is not empty and [stof] throws on it, and it then throws what [stof]
    threw; the assertion fails exactly for an empty type string.
    Whenever the call does not return, the option and the outside state
    are what they were. *)
Theorem assignment_throws_iff (this : Option) (v : string) (w : World) :
  let '(c, this', w') := Option_assign stof this v w in
  (forall e, c = Threw e
             <-> type this = "spin" /\ v <> "" /\ stof v = Throw e)
  /\ (c = AssertFailed <-> type this = "")
  /\ (c <> Returned -> this' = this /\ w' = w).
Proof.
  destruct (String.eqb_spec (type this) "") as [T0|T0].
  { unfold Option_assign. rewrite T0. simpl.
    split; [|split]; try tauto.
    intros e. split; [discriminate|]. intros (T & _). congruence. }
  pose proof (Option_assign_result this v w) as R.
  pose proof (Option_assign_outcome stof this v w T0) as O.
  destruct (Option_assign stof this v w) as [[c this'] w']. simpl in R.
  apply String.eqb_neq in T0. rewrite T0 in R. apply String.eqb_neq in T0.
  destruct (spec_rejects stof this v) eqn:J.
  - injection R as -> ->.
    split; [|split]; try (split; [discriminate | congruence]);
      [|intros N; elim N; reflexivity].
    intros e. split; [discriminate|]. intros (T & V & E). exfalso.
    unfold spec_rejects in J. rewrite T, E in J. simpl in J.
    apply String.eqb_neq in V. rewrite V in J. discriminate.
  - destruct (String.eqb_spec (type this) "spin") as [S|S].
    + destruct (stof v) as [x|e0] eqn:E.
      * injection R as -> ->.
        split; [|split]; try (split; [discriminate | congruence]);
          [|intros N; elim N; reflexivity].
        intros e. split; [discriminate|]. intros (_ & _ & E'). discriminate.
      * injection R as -> ->. destruct O as (_ & V & _ & _ & ->).
        apply String.eqb_neq in V.
        split; [|split]; try (split; [discriminate | congruence]); auto.
        intros e. split.
        -- intros E'. injection E' as ->. auto.
        -- intros (_ & _ & E'). congruence.
    + injection R as -> _.
      split; [|split]; try (split; [discriminate | congruence]);
        [|intros N; elim N; reflexivity].
      intros e. split; [discriminate | tauto].
Qed.

(** X5: assigning a value a second time gives the option the first
    assignment gave, and ends the same way: whether a value is accepted
    does not depend on the current value.  (A hook is called at each
    accepted assignment.) *)
Theorem assignment_repeated (this : Option) (v : string) (w : World) :
  let '(c1, this1, w1) := Option_assign stof this v w in
  let '(c2, this2, w2) := Option_assign stof this1 v w1 in
  c2 = c1 /\ this2 = this1.
Proof.
  pose proof (Option_assign_result this v w) as R1.
  destruct (Option_assign stof this v w) as [[c1 this1] w1]. simpl in R1.
  pose proof (Option_assign_result this1 v w1) as R2.
  destruct (Option_assign stof this1 v w1) as [[c2 this2] w2]. simpl in R2.
  assert (E : this1 = this \/ this1 = set_currentValue this v).
  { destruct (type this == ""); [left; congruence|].
    destruct (spec_rejects stof this v); [left; congruence|].
    destruct (type this == "spin").
    - destruct (stof v); [right | left]; congruence.
    - destruct (type this == "button"); [left | right]; congruence. }
  destruct E as [-> | ->].
  - rewrite <- R1 in R2. injection R2 as -> ->. auto.
  - rewrite spec_rejects_set_currentValue in R2.
    change (type (set_currentValue this v)) with (type this) in R2.
    change (set_currentValue (set_currentValue this v) v)
      with (set_currentValue this v) in R2.
    destruct (type this == ""); [split; congruence|].
    destruct (spec_rejects stof this v); [split; congruence|].
    destruct (type this == "spin").
    + destruct (stof v); split; congruence.
    + destruct (type this == "button"); split; congruence.
Qed.

(** X6: for a string option every non-empty value is accepted as it is:
    it is what the conversion to [std::string] yields afterwards, and the
    hook is called with it.  The empty value is ignored, so no
    assignment empties a string option. *)
Theorem string_write_then_read (this : Option) (v : string) (w : World) :
  type this = "string" ->
  let '(c, this', w') := Option_assign stof this v w in
  c = Returned
  /\ Option_to_string this' = Some (if v == "" then currentValue this else v)
  /\ on_change_calls w'
     = (on_change_calls w
        ++ (if v == "" then []
            else match on_change this with
                 | Some f => [(f, set_currentValue this v)]
                 | None => []
                 end))%list
  /\ insert_order w' = insert_order w.
Proof.
  intros T. unfold Option_assign, Option_to_string. rewrite T. simpl.
  destruct (v == ""); simpl.
  - rewrite T, app_nil_r. auto.
  - rewrite assign_tail_not_combo by (rewrite T; reflexivity).
    rewrite T. simpl. rewrite T, call_on_change_calls,
      call_on_change_insert_order. auto.
Qed.

Lemma last_cons {A : Type} (l : list A) :
  forall a d, last (a :: l) d = last l a.
Proof.
  induction l as [|b l IH]; intros a d; [reflexivity|].
  change (last (a :: b :: l) d) with (last (b :: l) d).
  now rewrite !IH.
Qed.

#[local] Arguments last {A} _ _ : simpl never.

Lemma assign_all_check (vs : list string) :
  forall this w,
    type this = "check" ->
    let '(c, this', w') := assign_all stof this vs w in
    c = Returned /\ type this' = "check"
    /\ currentValue this'
       = last (filter (fun v => (v == "true") || (v == "false")) vs)
              (currentValue this).
Proof.
  induction vs as [|v rest IH]; intros this w T; simpl; auto.
  unfold Option_assign. rewrite T. simpl.
  destruct (String.eqb_spec v "true") as [->|N1]; simpl.
  - rewrite assign_tail_not_combo by (rewrite T; reflexivity).
    rewrite T. simpl. rewrite last_cons.
    apply (IH (set_currentValue this "true")). exact T.
  - destruct (String.eqb_spec v "false") as [->|N2]; simpl.
    + rewrite assign_tail_not_combo by (rewrite T; reflexivity).
      rewrite T. simpl. rewrite last_cons.
      apply (IH (set_currentValue this "false")). exact T.
    + destruct (v == ""); simpl; apply IH; exact T.
Qed.

(** X7: a check option holds, after any assignments, the last assigned
    value that was "true" or "false", or the declared one when there was
    none; no assignment to it throws, and the conversion to a number
    reads 1 for "true" and 0 for "false". *)
Theorem check_holds_last_boolean (b : bool) (f : option OnChange)
    (vs : list string) (w : World) :
  let '(c, this', w') := assign_all stof (Option_check b f) vs w in
  c = Returned
  /\ currentValue this'
     = last (filter (fun v => (v == "true") || (v == "false")) vs)
            (if b then "true" else "false")
  /\ ((currentValue this' = "true"
       /\ Option_to_double stof this' = Some (Value (float_of_int 1)))
      \/ (currentValue this' = "false"
          /\ Option_to_double stof this' = Some (Value (S754_zero false)))).
Proof.
  pose proof (assign_all_check vs (Option_check b f) w eq_refl) as H.
  destruct (assign_all stof (Option_check b f) vs w) as [[c this'] w'].
  destruct H as (-> & T & E). split; [reflexivity|].
  split; [rewrite E; destruct b; reflexivity|].
  assert (V : currentValue this' = "true" \/ currentValue this' = "false").
  { rewrite E. clear.
    assert (D : currentValue (Option_check b f) = "true"
                \/ currentValue (Option_check b f) = "false")
      by (destruct b; auto).
    revert D. generalize (currentValue (Option_check b f)) as d.
    induction vs as [|v rest IH]; intros d D; [exact D|]. simpl.
    destruct (String.eqb_spec v "true") as [->|N1]; simpl.
    - rewrite last_cons. apply IH. auto.
    - destruct (String.eqb_spec v "false") as [->|N2]; simpl.
      + rewrite last_cons. apply IH. auto.
      + apply IH. exact D. }
  unfold Option_to_double. rewrite T. simpl.
  destruct V as [V|V]; rewrite V; simpl; auto.
Qed.

(** X8: a spin accepts every non-empty value that [stof] converts to a
    number neither below [min] nor above [max]: the text is stored as it
    was given, the conversion to a number yields the number [stof] read,
    the hook is called with the updated option and the counter of ranks
    is not touched. *)
Theorem spin_write_then_read (this : Option) (v : string) (x : spec_float)
    (w : World) :
  type this = "spin" ->
  v <> "" ->
  stof v = Value x ->
  SFltb x (float_of_int (min this)) = false ->
  SFltb (float_of_int (max this)) x = false ->
  let '(c, this', w') := Option_assign stof this v w in
  c = Returned
  /\ currentValue this' = v
  /\ Option_to_double stof this' = Some (Value x)
  /\ on_change_calls w'
     = (on_change_calls w
        ++ match on_change this with
           | Some f => [(f, set_currentValue this v)]
           | None => []
           end)%list
  /\ insert_order w' = insert_order w.
Proof.
  intros T V S L H. unfold Option_assign, Option_to_double.
  apply String.eqb_neq in V. rewrite T, V, S, L, H. simpl.
  rewrite assign_tail_not_combo by (rewrite T; reflexivity).
  rewrite T. simpl. rewrite T, S, call_on_change_calls,
    call_on_change_insert_order. simpl. auto.
Qed.

Lemma SFltb_irrefl (x : spec_float) : SFltb x x = false.
Proof.
  unfold SFltb, SFcompare.
  destruct x as [s|s| |s m e]; try destruct s; auto;
    rewrite Z.compare_refl, Pos.compare_cont_refl; reflexivity.
Qed.

(** X9: the bounds of a spin are inclusive: when the bounds are not
    inverted, a value that converts to [min] itself, or to [max] itself,
    is accepted and stored. *)
Theorem spin_bounds_are_inclusive (this : Option) (v : string) (w : World) :
  type this = "spin" ->
  v <> "" ->
  SFltb (float_of_int (max this)) (float_of_int (min this)) = false ->
  stof v = Value (float_of_int (min this))
  \/ stof v = Value (float_of_int (max this)) ->
  let '(c, this', w') := Option_assign stof this v w in
  c = Returned /\ this' = set_currentValue this v.
Proof.
  intros T V B S. unfold Option_assign.
  apply String.eqb_neq in V. rewrite T, V. simpl.
  destruct S as [S|S]; rewrite S, ?SFltb_irrefl, B; simpl;
    rewrite ?SFltb_irrefl; simpl;
    rewrite assign_tail_not_combo by (rewrite T; reflexivity);
    rewrite T; simpl; auto.
Qed.

Lemma Option_assign_world_not_combo (this : Option) (v : string) (w : World) :
  (type this == "combo") = false ->
  snd (Option_assign stof this v w) = w
  \/ snd (Option_assign stof this v w)
     = call_on_change (snd (fst (Option_assign stof this v w))) w.
Proof.
  intros T. unfold Option_assign.
  destruct (type this == ""); auto.
  destruct (negb (type this == "button") && (v == "")); auto.
  destruct ((type this == "check") && negb (v == "true")
            && negb (v == "false")); auto.
  destruct (type this == "spin").
  - destruct (stof v) as [x|e]; auto.
    destruct (SFltb x (float_of_int (min this))
              || SFltb (float_of_int (max this)) x); auto.
    rewrite assign_tail_not_combo by assumption. right. reflexivity.
  - rewrite assign_tail_not_combo by assumption. right. reflexivity.
Qed.

(** X10: an assignment to an option that is not a combo leaves the
    counter of ranks alone, and changes the outside state by one call of
    the hook of the option, with the option as it is afterwards, or not
    at all. *)
Theorem assignment_outside_effect (this : Option) (v : string) (w : World) :
  type this <> "combo" ->
  let '(c, this', w') := Option_assign stof this v w in
  insert_order w' = insert_order w
  /\ (w' = w
      \/ exists f, on_change this = Some f
                   /\ on_change_calls w'
                      = (on_change_calls w ++ [(f, this')])%list).
Proof.
  intros T. apply String.eqb_neq in T.
  pose proof (Option_assign_world_not_combo this v w T) as W.
  pose proof (assignment_keeps_declaration this v w) as K.
  destruct (Option_assign stof this v w) as [[c this'] w']. simpl in W.
  destruct K as (_ & _ & _ & _ & _ & K & _).
  destruct W as [-> | ->]; [auto|].
  rewrite call_on_change_insert_order. split; [reflexivity|].
  unfold call_on_change. rewrite K.
  destruct (on_change this) as [f|]; [right | left; reflexivity].
  exists f. auto.
Qed.

(** X11: after a combo has accepted a value, the comparison of the
    option with a C string holds exactly for the strings equal to that
    value up to case; in particular it holds for the value itself. *)
Theorem combo_equals_written_value (this : Option) (v s : string)
    (w : World) :
  type this = "combo" ->
  matches_token this v = true ->
  v <> "var" ->
  let '(c, this', w') := Option_assign stof this v w in
  Option_eq this' s = ci_equiv v s /\ Option_eq this' v = true.
Proof.
  intros T M V.
  pose proof (Option_assign_result this v w) as R.
  destruct (Option_assign stof this v w) as [[c this'] w']. simpl in R.
  rewrite (combo_rejects stof this v T), M in R.
  apply String.eqb_neq in V. rewrite V, T in R. simpl in R.
  injection R as _ ->. split; [reflexivity|].
  apply (ci_equiv_refl v).
Qed.

End MoreOnAssignment.

Lemma string_write_then_read_witness :
  let this := Option_string "<empty>" (Some on_tb_path) in
  let '(c, this', w') :=
    Option_assign std_stof this "/tb/syzygy" fresh_world in
  c = Returned /\ Option_to_string this' = Some "/tb/syzygy".
Proof.
  pose proof (string_write_then_read std_stof
                (Option_string "<empty>" (Some on_tb_path)) "/tb/syzygy"
                fresh_world eq_refl) as H.
  cbv zeta.
  destruct (Option_assign std_stof (Option_string "<empty>" (Some on_tb_path))
              "/tb/syzygy" fresh_world) as [[c this'] w'].
  destruct H as (H1 & H2 & _). split; [exact H1 | exact H2].
Defined.

Lemma spin_write_then_read_witness :
  let '(c, this', w') := Option_assign std_stof hash_option "64" fresh_world in
  c = Returned /\ currentValue this' = "64"
  /\ Option_to_double std_stof this' = Some (Value (float_of_int 64)).
Proof.
  pose proof (spin_write_then_read std_stof hash_option "64"
                (float_of_int 64) fresh_world eq_refl) as H.
  destruct (Option_assign std_stof hash_option "64" fresh_world)
    as [[c this'] w'].
  destruct H as (H1 & H2 & H3 & _); try reflexivity; try discriminate.
  auto.
Defined.

Lemma spin_bounds_are_inclusive_witness :
  let '(c, this', w') :=
    Option_assign std_stof hash_option "33554432" fresh_world in
  c = Returned /\ this' = set_currentValue hash_option "33554432".
Proof.
  apply (spin_bounds_are_inclusive std_stof hash_option "33554432"
           fresh_world).
  - reflexivity.
  - discriminate.
  - reflexivity.
  - right. reflexivity.
Defined.

Lemma assignment_outside_effect_witness :
  let '(c, this', w') := Option_assign std_stof hash_option "64" fresh_world in
  insert_order w' = insert_order fresh_world
  /\ (w' = fresh_world
      \/ exists f, on_change hash_option = Some f
                   /\ on_change_calls w'
                      = (on_change_calls fresh_world ++ [(f, this')])%list).
Proof.
  apply (assignment_outside_effect std_stof hash_option "64" fresh_world).
  discriminate.
Defined.

Lemma combo_equals_written_value_witness :
  let '(c, this', w') :=
    Option_assign std_stof contempt_option "black" fresh_world in
  Option_eq this' "BLACK" = ci_equiv "black" "BLACK"
  /\ Option_eq this' "black" = true.
Proof.
  apply (combo_equals_written_value std_stof contempt_option "black" "BLACK"
           fresh_world).
  - reflexivity.
  - reflexivity.
  - discriminate.
Defined.

(** ** More on the map *)

Section MoreOnTheMap.

Lemma om_sorted_tail (it : string * Option) (rest : OptionsMap) :
  om_sorted (it :: rest) = true -> om_sorted rest = true.
Proof.
  destruct it as [k o]. simpl. destruct rest as [|[k' o'] r]; auto.
  intros H. apply andb_prop in H. tauto.
Qed.

Lemma om_sorted_above (rest : OptionsMap) :
  forall k o, om_sorted ((k, o) :: rest) = true ->
              forall it, In it rest -> CaseInsensitiveLess k (fst it) = true.
Proof.
  induction rest as [|[k1 o1] r IH]; intros k o H it Hit; [destruct Hit|].
  cbn [om_sorted] in H. apply andb_prop in H. destruct H as [L S].
  destruct Hit as [<-|Hit]; [exact L|].
  apply (less_trans k k1); auto. apply (IH k1 o1); auto.
Qed.

Lemma om_sorted_cons (k : string) (o : Option) (l : OptionsMap) :
  om_sorted l = true ->
  (forall it, In it l -> CaseInsensitiveLess k (fst it) = true) ->
  om_sorted ((k, o) :: l) = true.
Proof.
  intros S A. destruct l as [|[k1 o1] r]; [reflexivity|].
  cbn [om_sorted]. apply andb_true_intro. split; [|exact S].
  apply (A (k1, o1)). now left.
Qed.

Lemma om_put_keys (om : OptionsMap) (k : string) (o : Option) :
  forall it, In it (om_put om k o) ->
             fst it = k \/ In (fst it) (map fst om).
Proof.
  induction om as [|[k1 o1] rest IH]; intros it; simpl.
  - intros [<-|[]]. now left.
  - destruct (CaseInsensitiveLess k1 k).
    + intros [<-|H]; simpl; auto. destruct (IH it H); auto.
    + destruct (CaseInsensitiveLess k k1).
      * intros [<-|[<-|H]]; simpl; auto.
        right. right. now apply in_map.
      * intros [<-|H]; simpl; auto. right. right. now apply in_map.
Qed.

Lemma om_put_sorted (om : OptionsMap) (k : string) (o : Option) :
  om_sorted om = true -> om_sorted (om_put om k o) = true.
Proof.
  induction om as [|[k1 o1] rest IH]; intros S; [reflexivity|].
  cbn [om_put].
  pose proof (om_sorted_above rest k1 o1 S) as A.
  pose proof (om_sorted_tail _ _ S) as S'.
  destruct (CaseInsensitiveLess k1 k) eqn:L1.
  - apply om_sorted_cons; [apply IH, S'|].
    intros it Hit. destruct (om_put_keys rest k o it Hit) as [->|K]; auto.
    apply in_map_iff in K. destruct K as (it' & E & Hit').
    rewrite <- E. now apply A.
  - destruct (CaseInsensitiveLess k k1) eqn:L2.
    + apply om_sorted_cons; [exact S|].
      intros it [<-|Hit]; [exact L2|].
      apply (less_trans k k1); auto.
    + apply om_sorted_cons; [exact S'|exact A].
Qed.

Lemma declare_all_sorted (decls : list (string * Option)) :
  forall om w, om_sorted om = true ->
               om_sorted (fst (declare_all om decls w)) = true.
Proof.
  induction decls as [|[n o] rest IH]; intros om w S; [exact S|].
  cbn [declare_all declare Option_shl]. apply IH. now apply om_put_sorted.
Qed.

(** X12: the operations of the code keep a map sorted by the comparator:
    a declaration, a batch of declarations, and an assignment through
    [operator[]] turn a sorted map into a sorted map.  The empty map is
    sorted, so every map the code builds is. *)
Theorem operations_keep_map_sorted (om : OptionsMap) :
  om_sorted om = true ->
  (forall name o w, om_sorted (fst (declare om name o w)) = true)
  /\ (forall decls w, om_sorted (fst (declare_all om decls w)) = true)
  /\ (forall stof name v w,
         om_sorted (snd (fst (OptionsMap_assign stof om name v w))) = true).
Proof.
  intros S. split; [|split].
  - intros name o w. unfold declare, Option_shl. simpl.
    now apply om_put_sorted.
  - intros decls w. now apply declare_all_sorted.
  - intros stof name v w. unfold OptionsMap_assign.
    destruct (Option_assign stof (om_subscript om name) v w) as [[c t] w'].
    simpl. now apply om_put_sorted.
Qed.

Lemma find_none_all {A : Type} (p : A -> bool) (l : list A) :
  (forall x, In x l -> p x = false) -> find p l = None.
Proof.
  induction l as [|a l IH]; intros H; simpl; auto.
  rewrite (H a) by now left. apply IH. intros x Hx. apply H. now right.
Qed.

(** X13: in a sorted map the search of [std::map], which stops at the
    first key that is not less than the one looked for, finds what a scan
    of all entries for a key equal up to case finds; and no two keys of
    the map are equal up to case. *)
Theorem sorted_map_search (om : OptionsMap) (k : string) :
  om_sorted om = true ->
  om_find om k
  = option_map snd (find (fun it => ci_equiv (fst it) k) om)
  /\ om_count om k
     = (if existsb (fun it => ci_equiv (fst it) k) om then 1 else 0)
  /\ distinct_names (map fst om) = true.
Proof.
  induction om as [|[k1 o1] rest IH]; intros S; [simpl; auto|].
  pose proof (om_sorted_above rest k1 o1 S) as A.
  destruct (IH (om_sorted_tail _ _ S)) as (F & C & D).
  cbn [om_find om_count find existsb fst map distinct_names].
  split; [|split].
  - destruct (CaseInsensitiveLess k1 k) eqn:L1.
    + assert (Q : ci_equiv k1 k = false)
        by (unfold ci_equiv; rewrite L1; reflexivity).
      rewrite Q. exact F.
    + destruct (CaseInsensitiveLess k k1) eqn:L2.
      * assert (Q : ci_equiv k1 k = false)
          by (unfold ci_equiv; rewrite L1, L2; reflexivity).
        rewrite Q. rewrite find_none_all; [reflexivity|].
        intros it Hit. specialize (A it Hit).
        destruct (ci_equiv (fst it) k) eqn:Q'; auto. order_close.
      * rewrite (ci_equiv_split k1 k L1 L2). reflexivity.
  - destruct (CaseInsensitiveLess k1 k) eqn:L1.
    + assert (Q : ci_equiv k1 k = false)
        by (unfold ci_equiv; rewrite L1; reflexivity).
      rewrite Q. exact C.
    + destruct (CaseInsensitiveLess k k1) eqn:L2.
      * assert (Q : ci_equiv k1 k = false)
          by (unfold ci_equiv; rewrite L1, L2; reflexivity).
        rewrite Q. simpl.
        assert (E : existsb (fun it => ci_equiv (fst it) k) rest = false).
        { destruct (existsb _ rest) eqn:E; auto.
          apply existsb_exists in E. destruct E as (it & Hit & Q').
          specialize (A it Hit). order_close. }
        now rewrite E.
      * rewrite (ci_equiv_split k1 k L1 L2). reflexivity.
  - apply andb_true_intro. split; [|exact D].
    apply forallb_forall. intros m Hm.
    apply in_map_iff in Hm. destruct Hm as (it & <- & Hit).
    specialize (A it Hit). apply negb_true_iff.
    destruct (ci_equiv (fst it) k1) eqn:Q; auto.
    apply ci_equiv_lowered in Q.
    rewrite CaseInsensitiveLess_lowered, Q, lex_irrefl in A. discriminate.
Qed.

End MoreOnTheMap.

Lemma operations_keep_map_sorted_witness :
  om_sorted (fst (init true "nn.nnue" [] fresh_world)) = true.
Proof.
  exact (proj1 (proj2 (operations_keep_map_sorted [] eq_refl))
           (init_declarations true "nn.nnue") fresh_world).
Defined.

Lemma sorted_map_search_witness :
  om_count (fst (init true "nn.nnue" [] fresh_world)) "hash"
  = (if existsb (fun it => ci_equiv (fst it) "hash")
               (fst (init true "nn.nnue" [] fresh_world))
     then 1 else 0).
Proof.
  exact (proj1 (proj2 (sorted_map_search
                         (fst (init true "nn.nnue" [] fresh_world)) "hash"
                         eq_refl))).
Defined.

(** ** Declarations and assignments in a map *)

Section MapOperations.

Lemma om_put_length (om : OptionsMap) (k : string) (o : Option) :
  List.length (om_put om k o)
  = if om_count om k =? 1 then List.length om else S (List.length om).
Proof.
  induction om as [|[k1 o1] rest IH]; simpl; auto.
  destruct (CaseInsensitiveLess k1 k); simpl.
  - rewrite IH. destruct (om_count rest k =? 1); reflexivity.
  - destruct (CaseInsensitiveLess k k1); reflexivity.
Qed.

Lemma om_put_same_keys (om : OptionsMap) (k : string) (o : Option) :
  om_count om k = 1 -> map fst (om_put om k o) = map fst om.
Proof.
  induction om as [|[k1 o1] rest IH]; simpl; [discriminate|].
  destruct (CaseInsensitiveLess k1 k); simpl.
  - intros H. now rewrite IH.
  - destruct (CaseInsensitiveLess k k1); [discriminate | reflexivity].
Qed.

(** X14: a declaration touches one entry of the map: names that differ
    from the declared one by more than case are found as before; the map
    grows by one entry when the name is new and keeps its size and the
    spelling of its keys when the name is present.  No hook is called,
    and the counter of ranks moves on by one. *)
Theorem declare_touches_one_entry (om : OptionsMap) (name : string)
    (o : Option) (w : World) :
  let (om', w') := declare om name o w in
  (forall k, ci_equiv name k = false ->
             om_find om' k = om_find om k /\ om_count om' k = om_count om k)
  /\ List.length om'
     = (if om_count om name =? 1 then List.length om
        else S (List.length om))
  /\ (om_count om name = 1 -> map fst om' = map fst om)
  /\ on_change_calls w' = on_change_calls w
  /\ insert_order w' = (insert_order w + 1) mod size_t_modulus.
Proof.
  unfold declare, Option_shl. repeat split.
  - rewrite om_find_put, H. reflexivity.
  - rewrite om_count_put, H. reflexivity.
  - apply om_put_length.
  - apply om_put_same_keys.
Qed.

Lemma declare_all_world (decls : list (string * Option)) :
  forall om w,
    0 <= insert_order w < size_t_modulus ->
    insert_order (snd (declare_all om decls w))
    = (insert_order w + Z.of_nat (List.length decls)) mod size_t_modulus
    /\ on_change_calls (snd (declare_all om decls w)) = on_change_calls w.
Proof.
  induction decls as [|[n o] rest IH]; intros om w R.
  - simpl. rewrite Z.add_0_r, Z.mod_small; auto.
  - cbn [declare_all declare Option_shl].
    match goal with
    | |- context [declare_all ?om1 rest ?w1] =>
        destruct (IH om1 w1) as [C H]
    end.
    { cbn [insert_order]. apply Z.mod_pos_bound. unfold size_t_modulus. lia. }
    rewrite C, H. cbn [insert_order on_change_calls]. split; [|reflexivity].
    rewrite Z.add_mod_idemp_l by (unfold size_t_modulus; lia).
    f_equal. rewrite length_cons. lia.
Qed.

Lemma declare_all_lookup (decls : list (string * Option)) (k : string) :
  forall om w,
    if existsb (fun d => ci_equiv (fst d) k) decls
    then om_count (fst (declare_all om decls w)) k = 1
    else om_find (fst (declare_all om decls w)) k = om_find om k
         /\ om_count (fst (declare_all om decls w)) k = om_count om k.
Proof.
  induction decls as [|[n o] rest IH]; intros om w; [simpl; auto|].
  cbn [declare_all declare Option_shl existsb fst].
  match goal with
  | |- context [declare_all ?om1 rest ?w1] => specialize (IH om1 w1)
  end.
  destruct (existsb (fun d => ci_equiv (fst d) k) rest).
  - rewrite orb_true_r. exact IH.
  - rewrite orb_false_r. destruct IH as [F C].
    rewrite F, C, om_find_put, om_count_put.
    destruct (ci_equiv n k); auto.
Qed.

(** X15: a batch of declarations, as [init] makes, moves the counter of
    ranks on by the number of declarations and calls no hook.
    Afterwards every declared name is present, under any spelling that
    differs in case only, and the other names are found as before. *)
Theorem declare_all_effect (decls : list (string * Option))
    (om : OptionsMap) (w : World) :
  0 <= insert_order w < size_t_modulus ->
  let (om', w') := declare_all om decls w in
  insert_order w'
  = (insert_order w + Z.of_nat (List.length decls)) mod size_t_modulus
  /\ on_change_calls w' = on_change_calls w
  /\ (forall k, existsb (fun d => ci_equiv (fst d) k) decls = true ->
                om_count om' k = 1)
  /\ (forall k, existsb (fun d => ci_equiv (fst d) k) decls = false ->
                om_find om' k = om_find om k).
Proof.
  intros R.
  pose proof (declare_all_world decls om w R) as [C H].
  pose proof (fun k => declare_all_lookup decls k om w) as L.
  destruct (declare_all om decls w) as [om' w']. simpl in *.
  repeat split; auto.
  - intros k E. specialize (L k). now rewrite E in L.
  - intros k E. specialize (L k). rewrite E in L. tauto.
Qed.

(** X16: an assignment through [operator[]] under a name that is not in
    the map creates an entry for it: the default constructed option, a
    button without hook, which accepts the value without storing it.
    The call returns, the outside state is untouched, the map has one
    entry more and the other names are found as before. *)
Theorem assignment_to_missing_name (stof : string -> stof_result)
    (om : OptionsMap) (name v : string) (w : World) :
  om_count om name = 0 ->
  let '(c, om', w') := OptionsMap_assign stof om name v w in
  c = Returned /\ w' = w
  /\ om_find om' name = Some (Option_button None)
  /\ om_count om' name = 1
  /\ List.length om' = S (List.length om)
  /\ forall k, ci_equiv name k = false -> om_find om' k = om_find om k.
Proof.
  intros C. unfold OptionsMap_assign, om_subscript.
  assert (F : om_find om name = None).
  { destruct (om_find om name) eqn:F; auto.
    assert (C1 : om_count om name = 1) by (apply om_count_find; eauto).
    congruence. }
  rewrite F. cbn.
  rewrite om_find_put, om_count_put, om_put_length, ci_equiv_refl, C.
  repeat split; auto.
  intros k Q. now rewrite om_find_put, Q.
Qed.

(** X17: an assignment through [operator[]] under a name that is present
    acts on the entry found: afterwards the entry is what the assignment
    made of it, the other names are found as before, and the keys, their
    order and the ranks of the map are what they were. *)
Theorem assignment_to_present_name (stof : string -> stof_result)
    (om : OptionsMap) (name v : string) (o0 : Option) (w : World) :
  om_find om name = Some o0 ->
  let '(c, om', w') := OptionsMap_assign stof om name v w in
  (c, om_find om' name, w')
  = (let '(c0, this', w0) := Option_assign stof o0 v w in
     (c0, Some this', w0))
  /\ (forall k, ci_equiv name k = false -> om_find om' k = om_find om k)
  /\ map key_rank om' = map key_rank om.
Proof.
  intros F. unfold OptionsMap_assign, om_subscript. rewrite F.
  pose proof (Option_assign_idx stof o0 v w) as I.
  destruct (Option_assign stof o0 v w) as [[c this'] w']. simpl in I.
  rewrite om_find_put, ci_equiv_refl. repeat split.
  - intros k Q. now rewrite om_find_put, Q.
  - now apply (om_put_present om name this' o0).
Qed.

End MapOperations.

Lemma declare_touches_one_entry_witness :
  om_find (fst (declare (fst (init true "nn.nnue" [] fresh_world)) "Hash"
                  hash_option fresh_world)) "threads"
  = om_find (fst (init true "nn.nnue" [] fresh_world)) "threads".
Proof.
  pose proof (declare_touches_one_entry
                (fst (init true "nn.nnue" [] fresh_world)) "Hash"
                hash_option fresh_world) as H.
  destruct (declare (fst (init true "nn.nnue" [] fresh_world)) "Hash"
              hash_option fresh_world) as [om' w'].
  exact (proj1 (proj1 H "threads" eq_refl)).
Defined.

Lemma declare_all_effect_witness :
  let (om', w') := init true "nn.nnue" [] fresh_world in
  insert_order w' = 40 /\ on_change_calls w' = [].
Proof.
  pose proof (declare_all_effect (init_declarations true "nn.nnue") []
                fresh_world) as H.
  unfold init.
  destruct (declare_all [] (init_declarations true "nn.nnue") fresh_world)
    as [om' w'].
  destruct H as (C & N & _).
  - vm_compute. split; [discriminate | reflexivity].
  - split; [exact C | exact N].
Defined.

Lemma assignment_to_missing_name_witness :
  let '(c, om', w') :=
    OptionsMap_assign std_stof (fst (init true "nn.nnue" [] fresh_world))
                      "Threadz" "4" fresh_world in
  c = Returned /\ w' = fresh_world
  /\ om_find om' "Threadz" = Some (Option_button None).
Proof.
  pose proof (assignment_to_missing_name std_stof
                (fst (init true "nn.nnue" [] fresh_world)) "Threadz" "4"
                fresh_world eq_refl) as H.
  destruct (OptionsMap_assign std_stof
              (fst (init true "nn.nnue" [] fresh_world)) "Threadz" "4"
              fresh_world) as [[c om'] w'].
  destruct H as (H1 & H2 & H3 & _). auto.
Defined.

Lemma assignment_to_present_name_witness :
  let '(c, om', w') :=
    OptionsMap_assign std_stof (fst (init true "nn.nnue" [] fresh_world))
                      "threads" "4" fresh_world in
  map key_rank om'
  = map key_rank (fst (init true "nn.nnue" [] fresh_world)).
Proof.
  pose proof (assignment_to_present_name std_stof
                (fst (init true "nn.nnue" [] fresh_world)) "threads" "4"
                (set_idx (Option_spin 1 1 512 (Some on_threads)) 3)
                fresh_world eq_refl) as H.
  destruct (OptionsMap_assign std_stof
              (fst (init true "nn.nnue" [] fresh_world)) "threads" "4"
              fresh_world) as [[c om'] w'].
  exact (proj2 (proj2 H)).
Defined.

(** ** More on printing *)

Section MoreOnPrinting.

Variable unset : string -> Z.

Lemma entry_with_idx_found (om : OptionsMap) (i : Z) (it : string * Option) :
  entry_with_idx unset om i = Some it -> In it om /\ idx_read unset it = i.
Proof.
  unfold entry_with_idx. intros H. apply find_some in H.
  destruct H as [I P]. split; [exact I|]. now apply Z.eqb_eq.
Qed.

Lemma walk_any_map (om : OptionsMap) (n : nat) :
  forall a : nat,
    let out := flat_map (fun m => match entry_with_idx unset om (Z.of_nat m) with
                                  | Some it => [it]
                                  | None => []
                                  end) (seq a n) in
    StronglySorted Z.lt (map (idx_read unset) out)
    /\ Forall (fun it => In it om
                         /\ Z.of_nat a <= idx_read unset it < Z.of_nat (a + n))
              out
    /\ (List.length out <= n)%nat.
Proof.
  induction n as [|n IH]; intros a; cbn zeta.
  - simpl. repeat split; try constructor.
  - cbn [seq flat_map].
    destruct (IH (S a)) as (S & B & L).
    assert (B' : Forall (fun it => In it om
                                   /\ Z.of_nat a <= idx_read unset it
                                      < Z.of_nat (a + Datatypes.S n))
                        (flat_map
                           (fun m => match entry_with_idx unset om (Z.of_nat m) with
                                     | Some it => [it]
                                     | None => []
                                     end) (seq (Datatypes.S a) n))).
    { eapply Forall_impl; [|exact B]. simpl. intros it [Hin Hr].
      split; [exact Hin | lia]. }
    destruct (entry_with_idx unset om (Z.of_nat a)) as [it|] eqn:E.
    + apply entry_with_idx_found in E. destruct E as [Hin Hidx].
      cbn [app map List.length]. split; [|split].
      * constructor; [exact S|]. apply Forall_map.
        eapply Forall_impl; [|exact B]. simpl. intros x [_ Hr]. lia.
      * constructor; [split; [exact Hin | lia] | exact B'].
      * lia.
    + cbn [app]. split; [exact S|]. split; [exact B' | lia].
Qed.

(** X18: whatever the map holds, and whatever an [idx] that was never
    set holds, the printing loop prints entries of the map only, at most
    as many as the map has, in strictly ascending order of the rank it
    reads from them, each such rank below the size of the map; so no
    entry is printed twice. *)
Theorem enumerate_ranks_ascend (om : OptionsMap) :
  StronglySorted Z.lt (map (idx_read unset) (enumerate unset om))
  /\ Forall (fun it => In it om
                       /\ 0 <= idx_read unset it < Z.of_nat (List.length om))
            (enumerate unset om)
  /\ (List.length (enumerate unset om) <= List.length om)%nat.
Proof. exact (walk_any_map om (List.length om) 0). Qed.

End MoreOnPrinting.

(** ** The options of [init] *)

(** X20: the options [init] declares are declared within their own
    rules, for either word size and any name of the network file: the
    default of every spin reads as a number within its bounds, the
    check options hold "true" or "false", and the current value of the
    combo is one of its tokens. *)
Theorem init_declares_valid_options (Is64Bit : bool)
    (EvalFileDefaultName : string) :
  Forall (fun d =>
            let o := snd d in
            (type o = "spin" -> spin_in_range std_stof o)
            /\ (type o = "combo" -> combo_is_token o)
            /\ (type o = "check" ->
                currentValue o = "true" \/ currentValue o = "false"))
         (init_declarations Is64Bit EvalFileDefaultName).
Proof.
  assert (C : forallb (fun d => declared_within_rules std_stof (snd d))
                      (init_declarations Is64Bit EvalFileDefaultName) = true).
  { destruct Is64Bit; vm_compute; reflexivity. }
  apply Forall_forall. intros d Hd.
  rewrite forallb_forall in C. specialize (C d Hd).
  unfold declared_within_rules in C. cbn zeta.
  destruct (String.eqb_spec (type (snd d)) "spin") as [S|S].
  - split; [|split]; intros T; try congruence.
    split; [exact S|].
    destruct (std_stof (currentValue (snd d))) as [x|e]; [|discriminate].
    exists x. auto.
  - destruct (String.eqb_spec (type (snd d)) "combo") as [K|K].
    + split; [|split]; intros T; try congruence. split; assumption.
    + destruct (String.eqb_spec (type (snd d)) "check") as [B|B].
      * split; [|split]; intros T; try congruence.
        apply orb_prop in C. destruct C as [C|C];
          apply String.eqb_eq in C; auto.
      * split; [|split]; intros T; congruence.
Qed.

(** ** Tokens and white space *)

Section TokensAndSpace.

Lemma has_space_app (a b : string) :
  has_space (a ++ b) = has_space a || has_space b.
Proof.
  unfold has_space. induction a as [|c a IH]; simpl; auto.
  rewrite IH. now rewrite orb_assoc.
Qed.

Lemma tokens_from_no_space (s : string) :
  forall cur t, has_space cur = false -> In t (tokens_from s cur) ->
                has_space t = false.
Proof.
  induction s as [|c s IH]; intros cur t C; simpl.
  - destruct (cur == ""); simpl; [tauto|]. intros [<-|[]]. exact C.
  - destruct (isspace c) eqn:W.
    + destruct (cur == ""); simpl.
      * apply IH. reflexivity.
      * intros [<-|H]; [exact C|]. eapply IH; [|exact H]. reflexivity.
    + apply IH. rewrite has_space_app, C. unfold has_space. simpl.
      now rewrite W.
Qed.

(** White space is told from the lowered character. *)
Lemma isspace_lowered (c : ascii) :
  isspace c
  = (let z := tolower (int_of_char c) in
     (9 <=? z) && (z <=? 13) || (z =? 32)).
Proof. destruct c as [[] [] [] [] [] [] [] []]; reflexivity. Qed.

Lemma has_space_lowered (s : string) :
  has_space s
  = existsb (fun z => (9 <=? z) && (z <=? 13) || (z =? 32)) (lowered s).
Proof.
  unfold has_space, lowered. induction (list_ascii_of_string s) as [|c l IH];
    simpl; auto.
  now rewrite IH, isspace_lowered.
Qed.

(** X21: a combo never accepts a value with white space in it: the
    tokens its list is split into hold none, so the value matches no
    token, the option stays as it was and no hook is called. *)
Theorem combo_rejects_value_with_space (stof : string -> stof_result)
    (this : Option) (v : string) (w : World) :
  type this = "combo" ->
  has_space v = true ->
  let '(c, this', w') := Option_assign stof this v w in
  c = Returned /\ this' = this
  /\ on_change_calls w' = on_change_calls w.
Proof.
  intros T S.
  assert (M : matches_token this v = false).
  { unfold matches_token. destruct (existsb _ _) eqn:E; auto.
    apply existsb_exists in E. destruct E as (t & Hin & Q).
    apply (tokens_from_no_space _ "" t eq_refl) in Hin.
    apply ci_equiv_lowered in Q.
    rewrite has_space_lowered in Hin, S. congruence. }
  assert (NE : type this <> "") by (rewrite T; discriminate).
  pose proof (Option_assign_outcome stof this v w NE) as H.
  destruct (Option_assign stof this v w) as [[c this'] w'].
  rewrite (combo_rejects stof this v T), M in H. simpl in H.
  destruct c.
  - tauto.
  - destruct H as (S' & _). rewrite T in S'. discriminate.
  - contradiction.
Qed.

End TokensAndSpace.

Lemma combo_rejects_value_with_space_witness :
  let '(c, this', w') :=
    Option_assign std_stof contempt_option "Both var Off" fresh_world in
  c = Returned /\ this' = contempt_option
  /\ on_change_calls w' = on_change_calls fresh_world.
Proof.
  apply (combo_rejects_value_with_space std_stof contempt_option
           "Both var Off" fresh_world); reflexivity.
Defined.

Lemma init_declares_valid_options_witness :
  spin_in_range std_stof hash_option.
Proof.
  pose proof (init_declares_valid_options true "nn.nnue") as H.
  unfold init_declarations in H.
  do 4 (apply Forall_inv_tail in H). apply Forall_inv in H.
  exact (proj1 H eq_refl).
Defined.

End UCI.
